(** * Section tables of loadable modules

    A shallow embedding of [sched/module/mod_sections.c]: the loader of the
    section header table ([mod_loadshdrs]), the resolver of one section name
    ([mod_sectname]) and the search of a section by name ([mod_findsection]).

    The session structure [mod_loadinfo_s] is passed explicitly; the calls the
    code makes to the reader and to the allocator are recorded in a trace, so
    that statements such as "no read is performed" can be written down. *)

From Stdlib.Strings Require Import Byte String.
From Stdlib Require Import ZArith List Lia Bool.
Import ListNotations.
Local Open Scope Z_scope.

(** ** The target: integer width, configuration, file and heap

    The headers that declare the integer types and the configuration are not
    part of the sources, so the width of [size_t] and the growth step of the
    working buffer are parameters.  [SIZE_BITS] is the width of [size_t],
    [CONFIG_MODULE_BUFFERINCR] the configured growth step, [dev_data] the
    content of the file, [dev_fault] tells the requests on which the device
    reports an I/O error, [heap_avail] the sizes the allocator can serve, and
    [heap_junk] the content of memory that was never written. *)

Record machine : Type := mkMachine {
  SIZE_BITS : Z;
  CONFIG_MODULE_BUFFERINCR : Z;
  dev_data : list byte;
  dev_fault : Z -> Z -> bool;
  heap_avail : Z -> bool;
  heap_junk : Z -> byte
}.

(** ** Integers

    The ELF32 field types are the standard ones: [Elf32_Half] has 16 bits,
    [Elf32_Word] and [Elf32_Off] have 32.  [filelen], [buflen] and the local
    lengths are [size_t] values; an [Elf32_Off] or an [off_t] mixed with a
    [size_t] is converted to the unsigned type by the usual arithmetic
    conversions, so on a target whose [size_t] has at least 32 bits every
    expression on offsets and lengths is computed modulo [2 ^ SIZE_BITS]. *)

Definition SIZE_MOD (E : machine) : Z := 2 ^ SIZE_BITS E.

(** Conversion of a mathematical integer to [size_t]. *)
Definition size_t (E : machine) (x : Z) : Z := x mod SIZE_MOD E.

(** The sum of two [Elf32_Word] values. *)
Definition Elf32_Word_add (a b : Z) : Z := (a + b) mod 2 ^ 32.

(** ** Return values

    The functions return [OK], an index, or a negated errno.  [Undefined] is
    the outcome of an access outside an object (a NULL table, an index beyond
    the allocation, a store beyond the buffer). *)

Inductive errno : Set :=
  | EINVAL | ESPIPE | ENOMEM | ENOENT | ENODATA | EIO.

Inductive result (A : Type) : Type :=
  | Success (a : A)
  | Failure (e : errno)
  | Undefined.
Arguments Success {A} a.
Arguments Failure {A} e.
Arguments Undefined {A}.

Definition OK : result unit := Success tt.

(** ** ELF structures *)

Record Elf32_Ehdr : Set := mkEhdr {
  e_shoff : Z;
  e_shentsize : Z;
  e_shnum : Z;
  e_shstrndx : Z
}.

Record Elf32_Shdr : Set := mkShdr {
  sh_name : Z;
  sh_type : Z;
  sh_flags : Z;
  sh_addr : Z;
  sh_offset : Z;
  sh_size : Z;
  sh_link : Z;
  sh_info : Z;
  sh_addralign : Z;
  sh_entsize : Z
}.

Definition SHN_UNDEF : Z := 0.
Definition SIZEOF_SHDR : Z := 40.

Definition zlen {A : Type} (l : list A) : Z := Z.of_nat (length l).

(** [slice l off len] is [l[off .. off+len)]. *)
Definition slice {A : Type} (l : list A) (off len : Z) : list A :=
  firstn (Z.to_nat len) (skipn (Z.to_nat off) l).

Definition byte_val (b : byte) : Z := Z.of_N (Byte.to_N b).

(** A little-endian 32-bit word, as the target reads it from memory. *)
Fixpoint le_word (bs : list byte) : Z :=
  match bs with
  | [] => 0
  | b :: bs' => byte_val b + 256 * le_word bs'
  end.

Definition word_at (bs : list byte) (k : Z) : Z := le_word (slice bs (4 * k) 4).

Definition shdr_of_bytes (bs : list byte) : Elf32_Shdr :=
  mkShdr (word_at bs 0) (word_at bs 1) (word_at bs 2) (word_at bs 3)
         (word_at bs 4) (word_at bs 5) (word_at bs 6) (word_at bs 7)
         (word_at bs 8) (word_at bs 9).

(** [shdr_at tbl i] is [tbl[i]] for the table viewed as [Elf32_Shdr *]; [None]
    when the entry is not inside the allocation. *)
Definition shdr_at (tbl : list byte) (i : Z) : option Elf32_Shdr :=
  if (0 <=? i) && (SIZEOF_SHDR * (i + 1) <=? zlen tbl)
  then Some (shdr_of_bytes (slice tbl (SIZEOF_SHDR * i) SIZEOF_SHDR))
  else None.

(** ** The session *)

Record mod_loadinfo_s : Type := mkLoadinfo {
  filelen : Z;
  ehdr : Elf32_Ehdr;
  shdr : option (list byte);
  iobuffer : list byte;
  buflen : Z
}.

Definition set_shdr (s : option (list byte)) (li : mod_loadinfo_s) :=
  mkLoadinfo (filelen li) (ehdr li) s (iobuffer li) (buflen li).

Definition set_iobuffer (b : list byte) (n : Z) (li : mod_loadinfo_s) :=
  mkLoadinfo (filelen li) (ehdr li) (shdr li) b n.

(** The calls made to the reader and to the allocator.  [EvRead pos len cap
    off]: [len] bytes of the file at [off] are to be stored at position [pos]
    of an object of [cap] bytes. *)
Inductive event : Set :=
  | EvRead (pos len cap off : Z)
  | EvMalloc (size : Z)
  | EvRealloc (newsize : Z).

Definition fresh (E : machine) (from : nat) (n : nat) : list byte :=
  map (fun k => heap_junk E (Z.of_nat k)) (seq from n).

(** Modelled from the spec: [mod_read] (the Bounded Reader, in mod_read.c, not
    part of the sources) fills exactly [len] bytes from the file starting at
    [off]; it fails, without filling anything, on an I/O error or when the
    range is not inside the file. *)
Definition mod_read (E : machine) (len off : Z) : result (list byte) :=
  if dev_fault E off len then Failure EIO
  else if (0 <=? off) && (0 <=? len) && (off + len <=? zlen (dev_data E))
  then Success (slice (dev_data E) off len)
  else Failure ENODATA.

(** Modelled from the spec: [kmm_malloc] gives a block of the requested size
    whose content is not initialised, or NULL. *)
Definition kmm_malloc (E : machine) (size : Z) : option (list byte) :=
  if heap_avail E size && (0 <=? size) && (size <? SIZE_MOD E)
  then Some (fresh E 0 (Z.to_nat size))
  else None.

(** Modelled from the spec: [mod_reallocbuffer] (mod_iobuffer.c, not part of
    the sources) grows the working buffer by [increment] bytes and keeps what
    it holds; it fails with [ENOMEM] when the allocator cannot serve the new
    size. *)
Definition mod_reallocbuffer (E : machine) (li : mod_loadinfo_s) (increment : Z)
  : result unit * mod_loadinfo_s :=
  let newsize := buflen li + increment in
  if heap_avail E newsize && (0 <=? newsize) && (newsize <? SIZE_MOD E)
  then
    let keep := firstn (Z.to_nat newsize) (iobuffer li) in
    let buffer := keep ++ fresh E (length keep) (Z.to_nat newsize - length keep) in
    (OK, set_iobuffer buffer newsize li)
  else (Failure ENOMEM, li).

(** Store [chunk] at [buf[pos ..]]; [None] when the region is not inside
    [buf]. *)
Definition poke (buf : list byte) (pos : Z) (chunk : list byte) : option (list byte) :=
  if (0 <=? pos) && (pos + zlen chunk <=? zlen buf)
  then Some (firstn (Z.to_nat pos) buf ++ chunk
             ++ skipn (Z.to_nat (pos + zlen chunk)) buf)
  else None.

Definition is_nul (b : byte) : bool := Byte.eqb b x00.

(** [memchr(p, '\0', n) != NULL] on the bytes [p[0 .. n)]. *)
Definition memchr_nul (bs : list byte) : bool := existsb is_nul bs.

(** The C string that starts at the first byte of [bs]. *)
Fixpoint cstring (bs : list byte) : list byte :=
  match bs with
  | [] => []
  | b :: bs' => if is_nul b then [] else b :: cstring bs'
  end.

Fixpoint bytes_eqb (a b : list byte) : bool :=
  match a, b with
  | [], [] => true
  | x :: a', y :: b' => Byte.eqb x y && bytes_eqb a' b'
  | _, _ => false
  end.

(** [strcmp(a, b) == 0]. *)
Definition strcmp_eq0 (a b : list byte) : bool := bytes_eqb (cstring a) (cstring b).

Definition bytes_of (s : string) : list byte := String.list_byte_of_string s.

(** ** mod_sectname *)

(** What a loop has done when it returns or when its fuel is spent: the
    returned value ([None] while the loop is still running), the session and
    the trace of calls. *)
Definition run (A : Type) : Type :=
  (option (result A) * mod_loadinfo_s * list event)%type.

Definition ret {A : Type} (r : result A) (li : mod_loadinfo_s) (tr : list event)
  : run A := (Some r, li, tr).

Definition running {A : Type} (li : mod_loadinfo_s) (tr : list event)
  : run A := (None, li, tr).

(** The [for (; ; )] loop; [fuel] bounds the number of iterations. *)
Fixpoint sectname_loop (fuel : nat) (E : machine) (offset bytesread : Z)
    (li : mod_loadinfo_s) (tr : list event) : run unit :=
  match fuel with
  | O => running li tr
  | S fuel' =>
    let readlen := size_t E (buflen li - bytesread) in
    let beyond := filelen li <? size_t E (offset + readlen) in
    if beyond && (filelen li <=? offset) then ret (Failure EINVAL) li tr
    else
      let readlen := if beyond then size_t E (filelen li - offset) else readlen in
      let tr1 := tr ++ [EvRead bytesread readlen (buflen li) offset] in
      match mod_read E readlen offset with
      | Failure e => ret (Failure e) li tr1
      | Undefined => ret Undefined li tr1
      | Success chunk =>
        match poke (iobuffer li) bytesread chunk with
        | None => ret Undefined li tr1
        | Some buf =>
          let li1 := set_iobuffer buf (buflen li) li in
          let bytesread1 := size_t E (bytesread + readlen) in
          if memchr_nul (slice (iobuffer li1) bytesread readlen)
          then ret OK li1 tr1
          else
            let tr2 := tr1 ++ [EvRealloc (buflen li1 + CONFIG_MODULE_BUFFERINCR E)] in
            match mod_reallocbuffer E li1 (CONFIG_MODULE_BUFFERINCR E) with
            | (Success _, li2) => sectname_loop fuel' E offset bytesread1 li2 tr2
            | (Failure e, li2) => ret (Failure e) li2 tr2
            | (Undefined, li2) => ret Undefined li2 tr2
            end
        end
      end
  end.

(** [shdr_ix] is the index of the record the pointer argument [shdr]
    designates in the session's table. *)
Definition mod_sectname (fuel : nat) (E : machine) (li : mod_loadinfo_s)
    (shdr_ix : Z) (tr : list event) : run unit :=
  let shstrndx := e_shstrndx (ehdr li) in
  if shstrndx =? SHN_UNDEF then ret (Failure EINVAL) li tr
  else
    match shdr li with
    | None => ret Undefined li tr
    | Some tbl =>
      match shdr_at tbl shstrndx, shdr_at tbl shdr_ix with
      | Some shstr, Some sh =>
        let offset := size_t E (Elf32_Word_add (sh_offset shstr) (sh_name sh)) in
        sectname_loop fuel E offset 0 li tr
      | _, _ => ret Undefined li tr
      end
    end.

(** ** mod_loadshdrs

    [DEBUGASSERT(loadinfo->shdr == NULL)] compiles to nothing in a build
    without debug assertions; the statements below take it as a hypothesis
    where they need it. *)

Definition shdr_table_size (E : machine) (eh : Elf32_Ehdr) : Z :=
  size_t E (size_t E (e_shentsize eh) * size_t E (e_shnum eh)).

Definition mod_loadshdrs (E : machine) (li : mod_loadinfo_s) (tr : list event)
  : result unit * mod_loadinfo_s * list event :=
  if e_shnum (ehdr li) <? 1 then (Failure EINVAL, li, tr)
  else
    let shdrsize := shdr_table_size E (ehdr li) in
    if filelen li <? size_t E (e_shoff (ehdr li) + shdrsize)
    then (Failure ESPIPE, li, tr)
    else
      let tr1 := tr ++ [EvMalloc shdrsize] in
      match kmm_malloc E shdrsize with
      | None => (Failure ENOMEM, set_shdr None li, tr1)
      | Some blk =>
        let li1 := set_shdr (Some blk) li in
        let tr2 := tr1 ++ [EvRead 0 shdrsize shdrsize (e_shoff (ehdr li))] in
        match mod_read E shdrsize (e_shoff (ehdr li)) with
        | Failure e => (Failure e, li1, tr2)
        | Undefined => (Undefined, li1, tr2)
        | Success data =>
          match poke blk 0 data with
          | Some tbl => (OK, set_shdr (Some tbl) li1, tr2)
          | None => (Undefined, li1, tr2)
          end
        end
      end.

(** ** mod_findsection *)

(** The [for (i = 0; i < e_shnum; i++)] loop; [gas] bounds the number of
    tests of the loop condition. *)
Fixpoint findsection_loop (gas fuel : nat) (E : machine) (sectname : list byte)
    (i : Z) (li : mod_loadinfo_s) (tr : list event) : run Z :=
  match gas with
  | O => running li tr
  | S gas' =>
    if i <? e_shnum (ehdr li) then
      match mod_sectname fuel E li i tr with
      | (None, li1, tr1) => running li1 tr1
      | (Some (Failure e), li1, tr1) => ret (Failure e) li1 tr1
      | (Some Undefined, li1, tr1) => ret Undefined li1 tr1
      | (Some (Success _), li1, tr1) =>
        if strcmp_eq0 (iobuffer li1) sectname then ret (Success i) li1 tr1
        else findsection_loop gas' fuel E sectname (i + 1) li1 tr1
      end
    else ret (Failure ENOENT) li tr
  end.

Definition mod_findsection (fuel : nat) (E : machine) (li : mod_loadinfo_s)
    (sectname : list byte) (tr : list event) : run Z :=
  findsection_loop (S (Z.to_nat (e_shnum (ehdr li)))) fuel E sectname 0 li tr.

(** ** Building file images

    Helpers for writing down concrete files: a word and a section header in
    the layout [shdr_of_bytes] reads. *)

Definition byte_of (x : Z) : byte :=
  match Byte.of_N (Z.to_N (x mod 256)) with
  | Some b => b
  | None => x00
  end.

Definition word_bytes (x : Z) : list byte :=
  [byte_of x; byte_of (x / 256); byte_of (x / 65536); byte_of (x / 16777216)].

Definition shdr_bytes (sh : Elf32_Shdr) : list byte :=
  word_bytes (sh_name sh) ++ word_bytes (sh_type sh) ++ word_bytes (sh_flags sh)
  ++ word_bytes (sh_addr sh) ++ word_bytes (sh_offset sh) ++ word_bytes (sh_size sh)
  ++ word_bytes (sh_link sh) ++ word_bytes (sh_info sh)
  ++ word_bytes (sh_addralign sh) ++ word_bytes (sh_entsize sh).

(** A header of which only the name and the file offset matter. *)
Definition named_shdr (name offset : Z) : Elf32_Shdr :=
  mkShdr name 0 0 0 offset 0 0 0 0 0.

Definition no_fault (off len : Z) : bool := false.
Definition heap_upto (limit size : Z) : bool := size <=? limit.
Definition junk (k : Z) : byte := xaa.

(** [buflen] is the size of [iobuffer]. *)
Definition buffer_ok (li : mod_loadinfo_s) : Prop := zlen (iobuffer li) = buflen li.

(** [filelen] and [buflen] are values of their type. *)
Definition sizes_ok (E : machine) (li : mod_loadinfo_s) : Prop :=
  0 <= filelen li < SIZE_MOD E /\ 0 <= buflen li < SIZE_MOD E.

(** A target whose [size_t] has at least 32 bits. *)
Definition target_ok (E : machine) : Prop := 32 <= SIZE_BITS E.

(** The region a read is asked to fill lies inside its object. *)
Definition read_in_bounds (ev : event) : Prop :=
  match ev with
  | EvRead pos len cap _ => 0 <= pos /\ 0 <= len /\ pos + len <= cap
  | _ => True
  end.

(** ** What the file says

    [name_offset li ix] is the file offset at which the name of section [ix]
    starts: the offset of the section name string table plus [sh_name]. *)
Definition name_offset (E : machine) (li : mod_loadinfo_s) (ix : Z) : option Z :=
  match shdr li with
  | Some tbl =>
    match shdr_at tbl (e_shstrndx (ehdr li)), shdr_at tbl ix with
    | Some shstr, Some sh =>
      Some (size_t E (Elf32_Word_add (sh_offset shstr) (sh_name sh)))
    | _, _ => None
    end
  | None => None
  end.

(** The file holds the bytes of [name], none of them NUL, followed by a NUL,
    at [offset]. *)
Definition name_at (E : machine) (offset : Z) (name : list byte) : Prop :=
  memchr_nul name = false
  /\ slice (dev_data E) offset (zlen name + 1) = name ++ [x00].

(** The number of bytes the first read of a name at [offset] asks for. *)
Definition first_read (li : mod_loadinfo_s) (offset : Z) : Z :=
  Z.min (buflen li) (filelen li - offset).

(** A session whose sizes fit their types, whose buffer is as long as
    [buflen] says, and whose file is at least as long as [filelen] says. *)
Definition session_ok (E : machine) (li : mod_loadinfo_s) : Prop :=
  target_ok E /\ sizes_ok E li /\ buffer_ok li
  /\ filelen li + buflen li < SIZE_MOD E
  /\ filelen li <= zlen (dev_data E).

(** The session and the trace after [k] sections, from index [i] on, have
    each been resolved and compared with [sectname] without a match; [None]
    when one of them does not resolve or matches. *)
Fixpoint scan_unmatched (k fuel : nat) (E : machine) (sectname : list byte)
    (i : Z) (li : mod_loadinfo_s) (tr : list event)
  : option (mod_loadinfo_s * list event) :=
  match k with
  | O => Some (li, tr)
  | S k' =>
    match mod_sectname fuel E li i tr with
    | (Some (Success _), li1, tr1) =>
      if strcmp_eq0 (iobuffer li1) sectname then None
      else scan_unmatched k' fuel E sectname (i + 1) li1 tr1
    | _ => None
    end
  end.

(** ** Sample files

    Three sections named [.text], [.data] and [.strtab]; the string table is at
    the start of the file, the section header table follows it at byte 20, and
    [.strtab] is the section name string table. *)

Definition three_names : list byte :=
  bytes_of ".text" ++ [x00] ++ bytes_of ".data" ++ [x00]
  ++ bytes_of ".strtab" ++ [x00].

Definition three_table : list byte :=
  shdr_bytes (named_shdr 0 200) ++ shdr_bytes (named_shdr 6 300)
  ++ shdr_bytes (named_shdr 12 0).

Definition three_device : machine :=
  mkMachine 32 32 (three_names ++ three_table) no_fault (heap_upto 4096) junk.

Definition three_session : mod_loadinfo_s :=
  mkLoadinfo 140 (mkEhdr 20 40 3 2) (Some three_table) (repeat xaa 32) 32.

(** A device on which every request fails, and a one-entry table at the start
    of a 40-byte file. *)
Definition broken_device : machine :=
  mkMachine 32 32 (repeat x01 40) (fun _ _ => true) (heap_upto 4096) junk.

Definition one_entry_session : mod_loadinfo_s :=
  mkLoadinfo 40 (mkEhdr 0 40 1 0) None [] 0.

(** A header that declares no section and a table offset beyond the file. *)
Definition healthy_device : machine :=
  mkMachine 32 32 (repeat x01 100) no_fault (heap_upto 4096) junk.

Definition no_section_session : mod_loadinfo_s :=
  mkLoadinfo 100 (mkEhdr 1000 40 0 0) None [] 0.

(** A header whose table offset lies 16 bytes below [2 ^ 32]. *)
Definition wrapping_session : mod_loadinfo_s :=
  mkLoadinfo 100 (mkEhdr 4294967280 40 1 0) None [] 0.

(** A header whose one-entry table would start at byte 80 of a 100-byte
    file. *)
Definition truncated_session : mod_loadinfo_s :=
  mkLoadinfo 100 (mkEhdr 80 40 1 0) None [] 0.

(** The same file, but the first section header gives a name offset of 5000,
    far beyond the 140 bytes of the file. *)
Definition stray_table : list byte :=
  shdr_bytes (named_shdr 5000 200) ++ shdr_bytes (named_shdr 6 300)
  ++ shdr_bytes (named_shdr 12 0).

Definition stray_device : machine :=
  mkMachine 32 32 (three_names ++ stray_table) no_fault (heap_upto 4096) junk.

Definition stray_session : mod_loadinfo_s :=
  mkLoadinfo 140 (mkEhdr 20 40 3 2) (Some stray_table) (repeat xaa 32) 32.

(** A file that ends inside its string table: two section headers, then the
    bytes [\0.shstrtab] with no terminator after them.  The buffer has 8
    bytes, grows by 4, and the heap serves 24 bytes at most. *)
Definition open_table : list byte :=
  shdr_bytes (named_shdr 0 0) ++ shdr_bytes (named_shdr 1 80).

Definition open_names : list byte := [x00] ++ bytes_of ".shstrtab".

Definition open_device : machine :=
  mkMachine 32 4 (open_table ++ open_names) no_fault (heap_upto 24) junk.

Definition open_session : mod_loadinfo_s :=
  mkLoadinfo 90 (mkEhdr 0 40 2 1) (Some open_table) (repeat xaa 8) 8.

(** Two sections named [text] and [.shstrtab]; the string table is at the
    start of the file and the table follows at byte 15.  The buffer has 4
    bytes, one less than [text] and its NUL need, and grows by 8. *)
Definition short_names : list byte :=
  bytes_of "text" ++ [x00] ++ bytes_of ".shstrtab" ++ [x00].

Definition short_table : list byte :=
  shdr_bytes (named_shdr 0 100) ++ shdr_bytes (named_shdr 5 0).

Definition short_device : machine :=
  mkMachine 32 8 (short_names ++ short_table) no_fault (heap_upto 4096) junk.

Definition short_session : mod_loadinfo_s :=
  mkLoadinfo 95 (mkEhdr 15 40 2 1) (Some short_table) (repeat xaa 4) 4.

(** The section header the file holds at index [k] of its table, and the
    file offset of the name of section [j] computed from the file alone. *)
Definition file_shdr (E : machine) (eh : Elf32_Ehdr) (k : Z) : Elf32_Shdr :=
  shdr_of_bytes (slice (dev_data E) (e_shoff eh + SIZEOF_SHDR * k) SIZEOF_SHDR).

Definition file_name_offset (E : machine) (eh : Elf32_Ehdr) (j : Z) : Z :=
  size_t E (Elf32_Word_add (sh_offset (file_shdr E eh (e_shstrndx eh)))
                           (sh_name (file_shdr E eh j))).

(** Two sessions that differ at most in the content of the working buffer. *)
Definition same_but_buffer (li1 li2 : mod_loadinfo_s) : Prop :=
  filelen li1 = filelen li2 /\ ehdr li1 = ehdr li2 /\ shdr li1 = shdr li2
  /\ buflen li1 = buflen li2.

(** ** Shapes of traces *)

(** A call the resolver may make for a name at [offset] in a file of
    [len_file] bytes: a read at that very offset, which ends inside the file
    unless offset plus remaining capacity is not representable in [size_t];
    or a growth of the buffer.  It never calls [kmm_malloc]. *)
Definition resolver_event (E : machine) (len_file offset : Z) (ev : event) : Prop :=
  match ev with
  | EvRead pos len cap off =>
      off = offset
      /\ (off + len <= len_file \/ SIZE_MOD E <= off + (cap - pos))
  | EvRealloc _ => True
  | EvMalloc _ => False
  end.

Definition is_read_at (offset : Z) (ev : event) : Prop :=
  match ev with
  | EvRead _ _ _ off => off = offset
  | EvRealloc _ => True
  | EvMalloc _ => False
  end.

Definition never_malloc (ev : event) : Prop :=
  match ev with
  | EvMalloc _ => False
  | _ => True
  end.

(** The three-section file before its table is loaded. *)
Definition three_fresh : mod_loadinfo_s :=
  mkLoadinfo 140 (mkEhdr 20 40 3 2) None (repeat xaa 32) 32.

(** The header of the three-section file with a string table index of 7. *)
Definition far_index_fresh : mod_loadinfo_s :=
  mkLoadinfo 140 (mkEhdr 20 40 3 7) None (repeat xaa 32) 32.

(** A table whose second section has its name at offset [2 ^ 32 - 8]. *)
Definition high_table : list byte :=
  shdr_bytes (named_shdr 0 0) ++ shdr_bytes (named_shdr 4294967288 0).

Definition high_device : machine :=
  mkMachine 32 32 (high_table ++ [x00]) no_fault (heap_upto 4096) junk.

Definition high_session : mod_loadinfo_s :=
  mkLoadinfo 81 (mkEhdr 0 40 2 1) (Some high_table) (repeat xaa 32) 32.

(** The two-section file of [short_device] on a target configured with a
    growth step of zero. *)
Definition stalled_device : machine :=
  mkMachine 32 0 (short_names ++ short_table) no_fault (heap_upto 4096) junk.

(** * Basic facts *)

Lemma SIZE_MOD_wide (E : machine) : target_ok E -> 4294967296 <= SIZE_MOD E.
Proof.
  unfold target_ok, SIZE_MOD. intros H. change 4294967296 with (2 ^ 32).
  apply Z.pow_le_mono_r; lia.
Qed.

Lemma sizes_ok_pos (E : machine) (li : mod_loadinfo_s) :
  sizes_ok E li -> 0 < SIZE_MOD E.
Proof. intros [H _]. lia. Qed.

Lemma size_t_range (E : machine) (x : Z) :
  0 < SIZE_MOD E -> 0 <= size_t E x < SIZE_MOD E.
Proof. intros H. unfold size_t. now apply Z.mod_pos_bound. Qed.

Lemma size_t_id (E : machine) (x : Z) : 0 <= x < SIZE_MOD E -> size_t E x = x.
Proof. intros H. unfold size_t. now apply Z.mod_small. Qed.

Lemma zlen_nonneg {A : Type} (l : list A) : 0 <= zlen l.
Proof. unfold zlen. lia. Qed.

Lemma zlen_app {A : Type} (l1 l2 : list A) : zlen (l1 ++ l2) = zlen l1 + zlen l2.
Proof. unfold zlen. rewrite length_app. lia. Qed.

Lemma zlen_slice {A : Type} (l : list A) (off len : Z) :
  0 <= off -> 0 <= len -> off + len <= zlen l -> zlen (slice l off len) = len.
Proof.
  unfold zlen, slice. intros Hoff Hlen Hin.
  rewrite length_firstn, length_skipn. lia.
Qed.

Lemma length_fresh (E : machine) (from n : nat) : length (fresh E from n) = n.
Proof. unfold fresh. now rewrite length_map, length_seq. Qed.

Lemma mod_read_Success (E : machine) (len off : Z) (chunk : list byte) :
  mod_read E len off = Success chunk ->
  chunk = slice (dev_data E) off len /\ zlen chunk = len
  /\ 0 <= off /\ 0 <= len /\ off + len <= zlen (dev_data E).
Proof.
  unfold mod_read. destruct (dev_fault E off len); [discriminate|].
  destruct ((0 <=? off) && (0 <=? len) && (off + len <=? zlen (dev_data E))) eqn:Hin;
    [|discriminate].
  intros [= <-]. apply andb_prop in Hin as [Hin H3]. apply andb_prop in Hin as [H1 H2].
  apply Z.leb_le in H1, H2, H3. repeat split; try assumption.
  now apply zlen_slice.
Qed.

Lemma mod_read_errno (E : machine) (len off : Z) (e : errno) :
  mod_read E len off = Failure e -> e = EIO \/ e = ENODATA.
Proof.
  unfold mod_read. destruct (dev_fault E off len); [intros [= <-]; now left|].
  destruct (_ && _); [discriminate|]. intros [= <-]. now right.
Qed.

Lemma mod_read_defined (E : machine) (len off : Z) : mod_read E len off <> Undefined.
Proof.
  unfold mod_read. destruct (dev_fault E off len); [discriminate|].
  destruct (_ && _); discriminate.
Qed.

Lemma kmm_malloc_Some (E : machine) (size : Z) (blk : list byte) :
  kmm_malloc E size = Some blk -> zlen blk = size.
Proof.
  unfold kmm_malloc. destruct (_ && _) eqn:H; [|discriminate]. intros [= <-].
  apply andb_prop in H as [H _]. apply andb_prop in H as [_ H]. apply Z.leb_le in H.
  unfold zlen. rewrite length_fresh. lia.
Qed.

Lemma poke_whole (blk data : list byte) :
  zlen data = zlen blk -> poke blk 0 data = Some data.
Proof.
  intros Hlen. unfold poke. rewrite Z.add_0_l, Hlen, Z.leb_refl. simpl.
  rewrite skipn_all2 by (unfold zlen; lia).
  change (Z.to_nat 0) with 0%nat. simpl. rewrite app_nil_r.
  now rewrite Z.leb_refl.
Qed.

(** * The section header table loader *)

(** C3, as stated, fails: when the reader fails, [mod_loadshdrs] returns the
    reader's error and leaves the block it has just allocated in
    [loadinfo->shdr]. *)
Lemma loadshdrs_read_failure_leaves_block :
  shdr one_entry_session = None
  /\ mod_loadshdrs broken_device one_entry_session []
     = (Failure EIO,
        set_shdr (Some (repeat xaa 40)) one_entry_session,
        [EvMalloc 40; EvRead 0 40 40 0]).
Proof. split; reflexivity. Qed.

(** C3, amended: called with no table attached, [mod_loadshdrs] either
    succeeds and the session holds the whole table, which is the
    [shdr_table_size] bytes of the file at [e_shoff]; or it fails with
    [EINVAL], [ESPIPE] or [ENOMEM] and the table is still unset; or the
    reader fails, its error is returned, and the session keeps the allocated
    block of [shdr_table_size] bytes.  No access is undefined. *)
Theorem loadshdrs_outcomes (E : machine) (li : mod_loadinfo_s) (tr : list event) :
  shdr li = None ->
  let size := shdr_table_size E (ehdr li) in
  match mod_loadshdrs E li tr with
  | (Success _, li', _) =>
      shdr li' = Some (slice (dev_data E) (e_shoff (ehdr li)) size)
      /\ zlen (slice (dev_data E) (e_shoff (ehdr li)) size) = size
  | (Failure e, li', _) =>
      ((e = EINVAL \/ e = ESPIPE \/ e = ENOMEM) /\ shdr li' = None)
      \/ (mod_read E size (e_shoff (ehdr li)) = Failure e
          /\ (e = EIO \/ e = ENODATA)
          /\ exists blk, shdr li' = Some blk /\ zlen blk = size)
  | (Undefined, _, _) => False
  end.
Proof.
  intros Hnull size. unfold mod_loadshdrs. fold size.
  destruct (e_shnum (ehdr li) <? 1); [left; split; [now left | assumption]|].
  destruct (filelen li <? size_t E (e_shoff (ehdr li) + size));
    [left; split; [right; now left | assumption]|].
  destruct (kmm_malloc E size) as [blk|] eqn:Halloc;
    [|left; split; [right; now right | reflexivity]].
  apply kmm_malloc_Some in Halloc.
  destruct (mod_read E size (e_shoff (ehdr li))) as [data|e|] eqn:Hread.
  - apply mod_read_Success in Hread as (Hdata & Hlen & _).
    rewrite poke_whole by congruence. simpl. subst data. now split.
  - right. split; [reflexivity|]. split; [now apply mod_read_errno in Hread|].
    exists blk. now split.
  - now apply mod_read_defined in Hread.
Qed.

Lemma loadshdrs_outcomes_witness :
  shdr (set_shdr (Some (slice (dev_data healthy_device) 0 40)) one_entry_session)
  = Some (slice (dev_data healthy_device) 0 40)
  /\ zlen (slice (dev_data healthy_device) 0 40) = 40.
Proof.
  exact (loadshdrs_outcomes healthy_device one_entry_session [] eq_refl).
Defined.

(** C4, as stated, fails: with a section count of zero the function answers
    [EINVAL] although offset plus table size exceeds the file length. *)
Lemma loadshdrs_no_sections_first :
  let eh := ehdr no_section_session in
  filelen no_section_session < e_shoff eh + e_shentsize eh * e_shnum eh
  /\ mod_loadshdrs healthy_device no_section_session []
     = (Failure EINVAL, no_section_session, []).
Proof. split; reflexivity. Qed.

(** C4, amended: on a target whose [size_t] has at least 32 bits, for a
    header with at least one section whose fields are 16-bit and 32-bit
    values, and whose sum [e_shoff + e_shentsize * e_shnum] is representable
    in [size_t], a sum that exceeds the file length makes [mod_loadshdrs] fail
    with [ESPIPE]; the session and the trace are unchanged, so nothing was
    allocated and nothing was read. *)
Theorem loadshdrs_truncated_no_read (E : machine) (li : mod_loadinfo_s)
    (tr : list event) :
  let eh := ehdr li in
  target_ok E ->
  1 <= e_shnum eh < 65536 -> 0 <= e_shentsize eh < 65536 -> 0 <= e_shoff eh ->
  e_shoff eh + e_shentsize eh * e_shnum eh < SIZE_MOD E ->
  filelen li < e_shoff eh + e_shentsize eh * e_shnum eh ->
  mod_loadshdrs E li tr = (Failure ESPIPE, li, tr).
Proof.
  intros eh Hwide Hnum Hent Hoff Hfit Hbig. unfold mod_loadshdrs. fold eh.
  apply SIZE_MOD_wide in Hwide.
  destruct (e_shnum eh <? 1) eqn:H1; [apply Z.ltb_lt in H1; lia|].
  assert (Hprod : 0 <= e_shentsize eh * e_shnum eh) by nia.
  assert (Hsize : shdr_table_size E eh = e_shentsize eh * e_shnum eh).
  { unfold shdr_table_size.
    rewrite (size_t_id E (e_shentsize eh)) by lia.
    rewrite (size_t_id E (e_shnum eh)) by lia.
    apply size_t_id. lia. }
  rewrite Hsize, size_t_id by lia.
  destruct (filelen li <? _) eqn:H2; [reflexivity|]. apply Z.ltb_ge in H2. lia.
Qed.

Lemma loadshdrs_truncated_no_read_witness :
  mod_loadshdrs healthy_device truncated_session []
  = (Failure ESPIPE, truncated_session, []).
Proof.
  apply (loadshdrs_truncated_no_read healthy_device truncated_session []);
    try (unfold target_ok; simpl; lia).
  change (SIZE_MOD healthy_device) with 4294967296. simpl. lia.
Defined.

(** C5: on a target with a 32-bit [size_t] the sum [e_shoff + shdrsize] is
    formed in 32 bits.  For a table
    offset of [2 ^ 32 - 16] and one 40-byte entry the sum is 24, the test
    against a file length of 100 passes although the table lies far beyond
    the file, and the function goes on to allocate and to read. *)
Theorem loadshdrs_offset_sum_wraps :
  let eh := ehdr wrapping_session in
  filelen wrapping_session < e_shoff eh + e_shentsize eh * e_shnum eh
  /\ size_t healthy_device (e_shoff eh + shdr_table_size healthy_device eh) = 24
  /\ mod_loadshdrs healthy_device wrapping_session []
     = (Failure ENODATA,
        set_shdr (Some (repeat xaa 40)) wrapping_session,
        [EvMalloc 40; EvRead 0 40 40 4294967280]).
Proof. repeat split. Qed.

(** On a target whose [size_t] has more than 32 bits the same sum is exact:
    the wrap-around above belongs to the 32-bit targets. *)
Lemma loadshdrs_sum_exact_when_wide (E : machine) (eh : Elf32_Ehdr) :
  33 <= SIZE_BITS E ->
  0 <= e_shoff eh < 4294967296 ->
  0 <= e_shentsize eh < 65536 -> 0 <= e_shnum eh < 65536 ->
  size_t E (e_shoff eh + shdr_table_size E eh)
  = e_shoff eh + e_shentsize eh * e_shnum eh.
Proof.
  intros Hwide Hoff Hent Hnum.
  assert (Hmod : 2 ^ 33 <= SIZE_MOD E)
    by (unfold SIZE_MOD; apply Z.pow_le_mono_r; lia).
  change (2 ^ 33) with 8589934592 in Hmod.
  assert (Hprod : 0 <= e_shentsize eh * e_shnum eh < 4294967296) by nia.
  unfold shdr_table_size.
  rewrite (size_t_id E (e_shentsize eh)), (size_t_id E (e_shnum eh)) by lia.
  rewrite (size_t_id E (_ * _)) by lia. apply size_t_id. lia.
Qed.

(** * The name resolver: sizes and bounds *)

Lemma size_t_add_cases (E : machine) (a b : Z) :
  0 <= a < SIZE_MOD E -> 0 <= b < SIZE_MOD E ->
  size_t E (a + b) = a + b \/ size_t E (a + b) = a + b - SIZE_MOD E.
Proof.
  intros Ha Hb. destruct (Z_lt_dec (a + b) (SIZE_MOD E)) as [Hlt|Hge].
  - left. apply size_t_id. lia.
  - right. unfold size_t. symmetry. apply (Z.mod_unique _ _ 1); lia.
Qed.

Lemma zlen_poke (buf chunk buf' : list byte) (pos : Z) :
  poke buf pos chunk = Some buf' -> zlen buf' = zlen buf.
Proof.
  unfold poke. destruct (_ && _) eqn:H; [|discriminate]. intros [= <-].
  apply andb_prop in H as [H1 H2]. apply Z.leb_le in H1, H2.
  rewrite !zlen_app. unfold zlen in *. rewrite length_firstn, length_skipn. lia.
Qed.

Lemma poke_defined (buf chunk : list byte) (pos : Z) :
  0 <= pos -> pos + zlen chunk <= zlen buf -> poke buf pos chunk <> None.
Proof.
  intros H1 H2. unfold poke.
  destruct (_ && _) eqn:H; [discriminate|]. apply andb_false_iff in H as [H|H].
  - apply Z.leb_gt in H. lia.
  - apply Z.leb_gt in H. lia.
Qed.

Lemma mod_reallocbuffer_cases (E : machine) (li : mod_loadinfo_s) (incr : Z) :
  mod_reallocbuffer E li incr = (Failure ENOMEM, li)
  \/ exists li2, mod_reallocbuffer E li incr = (OK, li2)
       /\ buflen li2 = buflen li + incr /\ 0 <= buflen li2 < SIZE_MOD E
       /\ buffer_ok li2
       /\ filelen li2 = filelen li /\ ehdr li2 = ehdr li /\ shdr li2 = shdr li.
Proof.
  unfold mod_reallocbuffer. destruct (_ && _) eqn:H; [right|now left].
  apply andb_prop in H as [H H3]. apply andb_prop in H as [_ H2].
  apply Z.leb_le in H2. apply Z.ltb_lt in H3.
  eexists. split; [reflexivity|]. simpl. repeat split; try assumption.
  unfold buffer_ok. simpl. rewrite zlen_app. unfold zlen.
  rewrite length_fresh, length_firstn. lia.
Qed.

Ltac parts := refine (conj _ (conj _ (conj _ (conj _ (conj _ (conj _ _)))))).

(** One run of the loop: every read it asks for lies inside the buffer, the
    buffer only grows, and the rest of the session is left alone.  With a
    buffer as long as [buflen] says, no store is undefined. *)
Lemma sectname_loop_bounds (E : machine) (offset : Z) :
  0 <= CONFIG_MODULE_BUFFERINCR E -> 0 <= offset < SIZE_MOD E ->
  forall (fuel : nat) (bytesread : Z) (li : mod_loadinfo_s) (tr : list event),
  sizes_ok E li -> 0 <= bytesread <= buflen li ->
  forall r li' tr', sectname_loop fuel E offset bytesread li tr = (r, li', tr') ->
  (exists evs, tr' = tr ++ evs /\ Forall read_in_bounds evs)
  /\ sizes_ok E li' /\ buflen li <= buflen li'
  /\ filelen li' = filelen li /\ ehdr li' = ehdr li /\ shdr li' = shdr li
  /\ (buffer_ok li -> buffer_ok li' /\ r <> Some Undefined).
Proof.
  intros Hincr Hoff. induction fuel as [|fuel IH]; intros bytesread li tr Hsz Hbr r li' tr'.
  - simpl. intros [= <- <- <-]. parts; try easy; try lia.
    exists []; now rewrite app_nil_r.
  - pose proof Hsz as [Hfl Hbl]. simpl.
    rewrite (size_t_id E (buflen li - bytesread)) by lia.
    set (beyond := filelen li <? size_t E (offset + (buflen li - bytesread))).
    destruct (beyond && (filelen li <=? offset)) eqn:Heof.
    { intros [= <- <- <-]. parts; try easy; try lia.
      exists []; now rewrite app_nil_r. }
    set (readlen := if beyond then size_t E (filelen li - offset)
                    else buflen li - bytesread).
    assert (Hlen : 0 <= readlen <= buflen li - bytesread).
    { unfold readlen. destruct beyond eqn:Hb; [|lia]. simpl in Heof.
      apply Z.leb_gt in Heof. unfold beyond in Hb. apply Z.ltb_lt in Hb.
      rewrite size_t_id by lia.
      destruct (size_t_add_cases E offset (buflen li - bytesread)) as [Hs|Hs];
        try lia; rewrite Hs in Hb; lia. }
    assert (Hev : read_in_bounds (EvRead bytesread readlen (buflen li) offset))
      by (simpl; lia).
    destruct (mod_read E readlen offset) as [chunk|e|] eqn:Hread.
    2:{ intros [= <- <- <-]. parts; try easy; try lia.
        eexists; split; [reflexivity | now constructor]. }
    2:{ now apply mod_read_defined in Hread. }
    apply mod_read_Success in Hread as (_ & Hchunk & _).
    destruct (poke (iobuffer li) bytesread chunk) as [buf|] eqn:Hpoke.
    2:{ intros [= <- <- <-]. parts; try easy; try lia.
        - eexists; split; [reflexivity | now constructor].
        - intros Hok. exfalso. revert Hpoke. apply poke_defined; [lia|].
          rewrite Hok. lia. }
    apply zlen_poke in Hpoke.
    destruct (memchr_nul _).
    { intros [= <- <- <-]. parts; try easy; try (simpl; lia).
      - eexists; split; [reflexivity | now constructor].
      - unfold buffer_ok. simpl. split; [congruence | discriminate]. }
    set (li1 := set_iobuffer buf (buflen li) li).
    destruct (mod_reallocbuffer_cases E li1 (CONFIG_MODULE_BUFFERINCR E))
      as [Hre|(li2 & Hre & Hb2 & Hr2 & Hok2 & Hf2 & He2 & Hs2)]; rewrite Hre.
    { intros [= <- <- <-]. parts; try easy; try (simpl; lia).
      - eexists. rewrite <- app_assoc. split; [reflexivity|].
        constructor; [assumption|]. constructor; [exact I|constructor].
      - unfold buffer_ok. simpl. split; [congruence | discriminate]. }
    unfold OK. intros Hrun. simpl in Hb2, Hf2, He2, Hs2.
    apply IH in Hrun as ((evs & -> & Hevs) & Hsz' & Hgrow & Hf' & He' & Hs' & Hbuf').
    + parts; try congruence; try lia; try assumption.
      * eexists. rewrite <- !app_assoc. split; [reflexivity|]. simpl.
        constructor; [assumption|]. constructor; [exact I|assumption].
      * intros _. now apply Hbuf'.
    + split; [rewrite Hf2|]; assumption.
    + rewrite size_t_id by lia. lia.
Qed.

(** The resolver changes nothing of the session but the working buffer. *)
Lemma sectname_loop_frame (E : machine) (offset : Z) (fuel : nat) :
  forall (bytesread : Z) (li : mod_loadinfo_s) (tr : list event) r li' tr',
  sectname_loop fuel E offset bytesread li tr = (r, li', tr') ->
  filelen li' = filelen li /\ ehdr li' = ehdr li /\ shdr li' = shdr li.
Proof.
  induction fuel as [|fuel IH]; intros bytesread li tr r li' tr'; simpl.
  - now intros [= <- <- <-].
  - destruct (_ && _); [now intros [= <- <- <-]|].
    destruct (mod_read E _ offset); try now intros [= <- <- <-].
    destruct (poke _ _ _); [|now intros [= <- <- <-]].
    destruct (memchr_nul _); [now intros [= <- <- <-]|].
    match goal with |- context [mod_reallocbuffer E ?l ?k] =>
      destruct (mod_reallocbuffer_cases E l k)
        as [Hre|(li2 & Hre & _ & _ & _ & Hf & He & Hs)]; rewrite Hre end.
    + now intros [= <- <- <-].
    + unfold OK. intros Hrun. apply IH in Hrun as (Hf' & He' & Hs').
      simpl in Hf, He, Hs. repeat split; congruence.
Qed.

Lemma mod_sectname_frame (fuel : nat) (E : machine) (li : mod_loadinfo_s)
    (ix : Z) (tr : list event) r li' tr' :
  mod_sectname fuel E li ix tr = (r, li', tr') ->
  filelen li' = filelen li /\ ehdr li' = ehdr li /\ shdr li' = shdr li.
Proof.
  unfold mod_sectname. destruct (_ =? _); [now intros [= <- <- <-]|].
  destruct (shdr li) as [tbl|] eqn:Htbl; [|now intros [= <- <- <-]].
  destruct (shdr_at tbl _); [|now intros [= <- <- <-]].
  destruct (shdr_at tbl ix); [|now intros [= <- <- <-]].
  rewrite <- Htbl. apply sectname_loop_frame.
Qed.

(** C9: whatever the file length, the capacity and the header fields, every
    read [mod_sectname] asks for, in every iteration and for every amount of
    fuel, has its destination [bytesread .. bytesread + readlen) inside the
    current capacity of the working buffer; and when the buffer is as long as
    [buflen] says, it stays so and no store of the loop is undefined. *)
Theorem sectname_reads_inside_buffer (fuel : nat) (E : machine)
    (li : mod_loadinfo_s) (ix : Z) (tr : list event) r li' tr' :
  target_ok E -> 0 <= CONFIG_MODULE_BUFFERINCR E -> sizes_ok E li ->
  mod_sectname fuel E li ix tr = (r, li', tr') ->
  (exists evs, tr' = tr ++ evs /\ Forall read_in_bounds evs)
  /\ buflen li <= buflen li'
  /\ (buffer_ok li ->
      buffer_ok li'
      /\ (r = Some Undefined ->
          match shdr li with
          | Some tbl => shdr_at tbl (e_shstrndx (ehdr li)) = None
                        \/ shdr_at tbl ix = None
          | None => True
          end)).
Proof.
  intros _ Hincr Hsz. unfold mod_sectname.
  destruct (_ =? _).
  { intros [= <- <- <-]. split; [exists []; now rewrite app_nil_r|].
    split; [lia|]. intros Hok. split; [assumption | discriminate]. }
  destruct (shdr li) as [tbl|].
  2:{ intros [= <- <- <-]. split; [exists []; now rewrite app_nil_r|].
      split; [lia|]. intros Hok. now split. }
  destruct (shdr_at tbl (e_shstrndx (ehdr li))) as [shstr|].
  2:{ intros [= <- <- <-]. split; [exists []; now rewrite app_nil_r|].
      split; [lia|]. intros Hok. split; [assumption | now left]. }
  destruct (shdr_at tbl ix) as [sh|].
  2:{ intros [= <- <- <-]. split; [exists []; now rewrite app_nil_r|].
      split; [lia|]. intros Hok. split; [assumption | now right]. }
  intros Hrun.
  apply sectname_loop_bounds in Hrun
    as (Hevs & _ & Hgrow & _ & _ & _ & Hbuf);
    try assumption;
    [|apply size_t_range; now apply (sizes_ok_pos E li)|destruct Hsz; lia].
  split; [assumption|]. split; [assumption|].
  intros Hok. destruct (Hbuf Hok) as [Hok' Hdef]. split; [assumption|].
  intros ->. now contradiction Hdef.
Qed.

Lemma sectname_reads_inside_buffer_witness :
  (exists evs, [EvRead 0 32 32 6] = [] ++ evs /\ Forall read_in_bounds evs)
  /\ 32 <= 32.
Proof.
  refine (let H := sectname_reads_inside_buffer 1 three_device three_session 1 []
                     _ _ _ _ _ _ eq_refl in conj (proj1 H) (proj1 (proj2 H))).
  - unfold target_ok. simpl. lia.
  - simpl. lia.
  - unfold sizes_ok. change (SIZE_MOD three_device) with 4294967296. simpl. lia.
Defined.

(** * The name resolver: names that fit *)

Lemma slice_poke (buf chunk buf' : list byte) (pos : Z) :
  poke buf pos chunk = Some buf' -> slice buf' pos (zlen chunk) = chunk.
Proof.
  unfold poke. destruct (_ && _) eqn:H; [|discriminate]. intros [= <-].
  apply andb_prop in H as [H1 H2]. apply Z.leb_le in H1, H2.
  assert (Hpre : length (firstn (Z.to_nat pos) buf) = Z.to_nat pos).
  { rewrite length_firstn. pose proof (zlen_nonneg chunk). unfold zlen in *. lia. }
  unfold slice. rewrite skipn_app, Hpre, Nat.sub_diag.
  rewrite skipn_all2 by lia. simpl.
  unfold zlen. rewrite Nat2Z.id, firstn_app, Nat.sub_diag, firstn_all.
  simpl. now rewrite app_nil_r.
Qed.

Lemma slice_0 {A : Type} (l : list A) (len : Z) :
  slice l 0 len = firstn (Z.to_nat len) l.
Proof. reflexivity. Qed.

Lemma firstn_plus {A : Type} (a b : nat) (l : list A) :
  firstn (a + b) l = firstn a l ++ firstn b (skipn a l).
Proof.
  revert l. induction a as [|a IH]; intros l; [reflexivity|].
  destruct l as [|x l]; simpl; [now rewrite firstn_nil|]. now rewrite IH.
Qed.

Lemma slice_split {A : Type} (l : list A) (off m n : Z) :
  0 <= off -> 0 <= m <= n ->
  slice l off n = slice l off m ++ slice l (off + m) (n - m).
Proof.
  intros Hoff Hm. unfold slice.
  replace (Z.to_nat n) with (Z.to_nat m + Z.to_nat (n - m))%nat by lia.
  rewrite firstn_plus. f_equal.
  rewrite skipn_skipn. do 2 f_equal. lia.
Qed.

Lemma memchr_nul_app (a b : list byte) :
  memchr_nul (a ++ b) = memchr_nul a || memchr_nul b.
Proof. apply existsb_app. Qed.

Lemma is_nul_x00 : is_nul x00 = true.
Proof. reflexivity. Qed.

Lemma cstring_terminated (name rest : list byte) :
  memchr_nul name = false -> cstring (name ++ x00 :: rest) = name.
Proof.
  induction name as [|b name IH]; simpl; [reflexivity|].
  intros H. apply orb_false_iff in H as [Hb Hname]. rewrite Hb.
  now rewrite IH.
Qed.

Lemma cstring_plain (name : list byte) :
  memchr_nul name = false -> cstring name = name.
Proof.
  induction name as [|b name IH]; simpl; [reflexivity|].
  intros H. apply orb_false_iff in H as [Hb Hname]. rewrite Hb.
  now rewrite IH.
Qed.

Lemma bytes_eqb_eq (a b : list byte) : bytes_eqb a b = true <-> a = b.
Proof.
  revert b. induction a as [|x a IH]; destruct b as [|y b]; simpl;
    try (split; [discriminate | discriminate]); [now split|].
  rewrite andb_true_iff, IH. split.
  - intros [Hxy ->]. f_equal. now apply Byte.byte_dec_bl.
  - intros [= -> ->]. split; [now apply Byte.byte_dec_lb | reflexivity].
Qed.

Lemma poke_front (buf chunk : list byte) :
  zlen chunk <= zlen buf ->
  poke buf 0 chunk = Some (chunk ++ skipn (length chunk) buf).
Proof.
  intros Hlen. unfold poke. simpl.
  destruct (zlen chunk <=? zlen buf) eqn:H; [|apply Z.leb_gt in H; lia].
  unfold zlen. now rewrite Nat2Z.id.
Qed.

Lemma mod_read_served (E : machine) (len off : Z) :
  dev_fault E off len = false -> 0 <= off -> 0 <= len ->
  off + len <= zlen (dev_data E) ->
  mod_read E len off = Success (slice (dev_data E) off len).
Proof.
  intros Hf Hoff Hlen Hin. unfold mod_read. rewrite Hf.
  destruct (_ && _) eqn:H; [reflexivity|].
  apply andb_false_iff in H as [H|H]; [apply andb_false_iff in H as [H|H]|];
    apply Z.leb_gt in H; lia.
Qed.

(** The first iteration of the loop when the name and its terminator are
    among the bytes of the first read. *)
Lemma sectname_loop_fits (fuel : nat) (E : machine) (offset : Z)
    (li : mod_loadinfo_s) (tr : list event) (name : list byte) :
  sizes_ok E li -> buffer_ok li -> 0 <= offset ->
  filelen li + buflen li < SIZE_MOD E ->
  filelen li <= zlen (dev_data E) ->
  let n := Z.min (buflen li) (filelen li - offset) in
  dev_fault E offset n = false ->
  memchr_nul name = false ->
  zlen name + 1 <= n ->
  slice (dev_data E) offset (zlen name + 1) = name ++ [x00] ->
  exists buf,
    sectname_loop (S fuel) E offset 0 li tr
    = ret OK (set_iobuffer buf (buflen li) li)
          (tr ++ [EvRead 0 n (buflen li) offset])
    /\ cstring buf = name /\ zlen buf = buflen li.
Proof.
  intros [Hfl Hbl] Hok Hoff Hsum Hdev n Hfault Hnul Hfit Hname.
  pose proof (zlen_nonneg name) as Hn0.
  assert (Hlt : offset < filelen li) by lia.
  cbn [sectname_loop]. rewrite Z.sub_0_r, (size_t_id E (buflen li)) by lia.
  rewrite (size_t_id E (offset + buflen li)) by lia.
  destruct (filelen li <=? offset) eqn:Heof; [apply Z.leb_le in Heof; lia|].
  rewrite andb_false_r.
  assert (Hn : (if filelen li <? offset + buflen li
                then size_t E (filelen li - offset) else buflen li) = n).
  { destruct (filelen li <? offset + buflen li) eqn:Hb.
    - apply Z.ltb_lt in Hb. rewrite size_t_id by lia. lia.
    - apply Z.ltb_ge in Hb. lia. }
  rewrite Hn.
  rewrite mod_read_served by (try assumption; lia).
  set (chunk := slice (dev_data E) offset n).
  assert (Hchunk : zlen chunk = n) by (apply zlen_slice; lia).
  rewrite poke_front by (rewrite Hchunk, Hok; lia).
  set (buf := chunk ++ skipn (length chunk) (iobuffer li)).
  assert (Hsplit : chunk = (name ++ [x00])
                           ++ slice (dev_data E) (offset + (zlen name + 1))
                                (n - (zlen name + 1))).
  { unfold chunk. rewrite (slice_split _ offset (zlen name + 1) n) by lia.
    now rewrite Hname. }
  assert (Hslice : slice (iobuffer (set_iobuffer buf (buflen li) li)) 0 n = chunk).
  { simpl. unfold buf. rewrite slice_0, <- Hchunk. unfold zlen.
    rewrite Nat2Z.id, firstn_app, Nat.sub_diag, firstn_all. simpl.
    now rewrite app_nil_r. }
  rewrite Hslice.
  assert (Hfound : memchr_nul chunk = true).
  { rewrite Hsplit, !memchr_nul_app. simpl. now rewrite orb_true_r. }
  rewrite Hfound. exists buf. split; [reflexivity|]. split.
  - unfold buf. rewrite Hsplit, <- !app_assoc. simpl.
    now apply cstring_terminated.
  - unfold buf. rewrite zlen_app. unfold zlen in *.
    rewrite length_skipn. unfold buffer_ok, zlen in Hok. lia.
Qed.

Lemma mod_sectname_fits (fuel : nat) (E : machine) (li : mod_loadinfo_s)
    (ix : Z) (tr : list event) (offset : Z) (name : list byte) :
  e_shstrndx (ehdr li) <> SHN_UNDEF -> session_ok E li ->
  name_offset E li ix = Some offset ->
  dev_fault E offset (first_read li offset) = false ->
  name_at E offset name -> zlen name + 1 <= first_read li offset ->
  exists buf,
    mod_sectname (S fuel) E li ix tr
    = ret OK (set_iobuffer buf (buflen li) li)
          (tr ++ [EvRead 0 (first_read li offset) (buflen li) offset])
    /\ cstring buf = name /\ zlen buf = buflen li.
Proof.
  intros Hstr (_ & Hsz & Hok & Hsum & Hdev) Hoff Hfault [Hnul Hname] Hfit.
  unfold name_offset in Hoff. unfold mod_sectname.
  destruct (e_shstrndx (ehdr li) =? SHN_UNDEF) eqn:H0;
    [apply Z.eqb_eq in H0; contradiction|].
  destruct (shdr li) as [tbl|]; [|discriminate].
  destruct (shdr_at tbl (e_shstrndx (ehdr li))) as [shstr|]; [|discriminate].
  destruct (shdr_at tbl ix) as [sh|]; [|discriminate].
  injection Hoff as Hoff. rewrite Hoff.
  apply sectname_loop_fits; try assumption.
  rewrite <- Hoff. apply size_t_range. now apply (sizes_ok_pos E li).
Qed.

(** C10: when the name and its NUL lie within the first
    [min (buflen, filelen - offset)] bytes at the name's offset, in a session
    whose sizes are consistent and on a device that serves the request,
    [mod_sectname] returns [OK] after exactly one read, of that many bytes at
    that offset, and no reallocation; the capacity of the working buffer and
    the rest of the session are unchanged, and the buffer starts with the
    name. *)
Theorem sectname_single_read (fuel : nat) (E : machine) (li : mod_loadinfo_s)
    (ix : Z) (tr : list event) (offset : Z) (name : list byte) :
  e_shstrndx (ehdr li) <> SHN_UNDEF -> session_ok E li ->
  name_offset E li ix = Some offset ->
  let n := Z.min (buflen li) (filelen li - offset) in
  dev_fault E offset n = false ->
  name_at E offset name -> zlen name + 1 <= n ->
  exists li',
    mod_sectname (S fuel) E li ix tr
    = ret OK li' (tr ++ [EvRead 0 n (buflen li) offset])
    /\ buflen li' = buflen li /\ buffer_ok li'
    /\ cstring (iobuffer li') = name
    /\ filelen li' = filelen li /\ ehdr li' = ehdr li /\ shdr li' = shdr li.
Proof.
  intros Hstr Hok Hoff n Hfault Hat Hfit.
  destruct (mod_sectname_fits fuel E li ix tr offset name)
    as (buf & Hrun & Hcs & Hlen); try assumption.
  exists (set_iobuffer buf (buflen li) li). split; [exact Hrun|].
  unfold buffer_ok. simpl. now repeat split.
Qed.

Lemma three_session_ok : session_ok three_device three_session.
Proof.
  unfold session_ok, target_ok, sizes_ok, buffer_ok.
  change (SIZE_MOD three_device) with 4294967296.
  repeat split; vm_compute; congruence.
Qed.

Lemma sectname_single_read_witness :
  exists li',
    mod_sectname 1 three_device three_session 1 []
    = ret OK li' [EvRead 0 32 32 6]
    /\ buflen li' = 32 /\ buffer_ok li'
    /\ cstring (iobuffer li') = bytes_of ".data"
    /\ filelen li' = 140 /\ ehdr li' = ehdr three_session
    /\ shdr li' = shdr three_session.
Proof.
  apply (sectname_single_read 0 three_device three_session 1 [] 6 (bytes_of ".data")).
  - discriminate.
  - exact three_session_ok.
  - reflexivity.
  - reflexivity.
  - split; reflexivity.
  - vm_compute. congruence.
Defined.

(** * The section finder *)

(** C6, as stated, fails: section 1 of the file is named [.data], yet the
    search for [.data] returns the error of the resolver on section 0, whose
    name offset lies beyond the file. *)
Lemma findsection_stops_at_bad_name :
  name_offset stray_device stray_session 1 = Some 6
  /\ name_at stray_device 6 (bytes_of ".data")
  /\ forall fuel : nat,
       mod_findsection (S fuel) stray_device stray_session (bytes_of ".data") []
       = ret (Failure EINVAL) stray_session [].
Proof.
  split; [reflexivity|]. split; [split; reflexivity|].
  intros fuel. reflexivity.
Qed.

(** The search among sections whose names fit the first read: it walks up
    from [k] and stops at the first section named [sectname]. *)
Lemma findsection_loop_lowest (fuel : nat) (E : machine) (sectname : list byte) :
  memchr_nul sectname = false ->
  (forall off len, dev_fault E off len = false) ->
  forall (d gas : nat) (k : Z) (li : mod_loadinfo_s) (tr : list event),
  (d < gas)%nat -> k + Z.of_nat d < e_shnum (ehdr li) ->
  e_shstrndx (ehdr li) <> SHN_UNDEF -> session_ok E li ->
  (forall j, k <= j <= k + Z.of_nat d ->
     exists off nm, name_offset E li j = Some off /\ name_at E off nm
       /\ zlen nm + 1 <= first_read li off
       /\ (nm = sectname <-> j = k + Z.of_nat d)) ->
  exists buf tr',
    findsection_loop gas (S fuel) E sectname k li tr
    = ret (Success (k + Z.of_nat d)) (set_iobuffer buf (buflen li) li) tr'
    /\ cstring buf = sectname.
Proof.
  intros Hplain Hdev. induction d as [|d IH];
    intros gas k li tr Hgas Hnum Hstr Hok Hnames;
    (destruct gas as [|gas]; [lia|]); cbn [findsection_loop].
  - rewrite Z.add_0_r in *.
    destruct (k <? e_shnum (ehdr li)) eqn:Hk; [|apply Z.ltb_ge in Hk; lia].
    destruct (Hnames k) as (off & nm & Hoff & Hat & Hfit & Hnm); [lia|].
    destruct (mod_sectname_fits fuel E li k tr off nm) as (buf & Hrun & Hcs & _);
      auto.
    rewrite Hrun. unfold ret, OK. cbn [iobuffer set_iobuffer].
    assert (nm = sectname) as -> by now apply Hnm.
    unfold strcmp_eq0. rewrite Hcs, (cstring_plain sectname) by assumption.
    rewrite (proj2 (bytes_eqb_eq sectname sectname) eq_refl).
    now exists buf, (tr ++ [EvRead 0 (first_read li off) (buflen li) off]).
  - destruct (k <? e_shnum (ehdr li)) eqn:Hk; [|apply Z.ltb_ge in Hk; lia].
    destruct (Hnames k) as (off & nm & Hoff & Hat & Hfit & Hnm); [lia|].
    destruct (mod_sectname_fits fuel E li k tr off nm) as (buf & Hrun & Hcs & Hlen);
      auto.
    rewrite Hrun. unfold ret, OK. cbn [iobuffer set_iobuffer].
    unfold strcmp_eq0. rewrite Hcs, (cstring_plain sectname) by assumption.
    destruct (bytes_eqb nm sectname) eqn:Heq;
      [apply bytes_eqb_eq, Hnm in Heq; lia|].
    set (li1 := set_iobuffer buf (buflen li) li).
    destruct (IH gas (k + 1) li1
                (tr ++ [EvRead 0 (first_read li off) (buflen li) off]))
      as (buf' & tr' & Hrest & Hcs'); try assumption; try lia.
    + simpl. lia.
    + destruct Hok as (Hwide & Hsz & _ & Hsum & Hfile).
      exact (conj Hwide (conj Hsz (conj Hlen (conj Hsum Hfile)))).
    + intros j Hj. destruct (Hnames j) as (off' & nm' & H1 & H2 & H3 & H4); [lia|].
      exists off', nm'. split; [assumption|]. split; [assumption|].
      split; [assumption|]. split; intros Hn; [apply H4 in Hn | apply H4]; lia.
    + exists buf', tr'. rewrite Hrest.
      replace (k + 1 + Z.of_nat d) with (k + Z.of_nat (S d)) by lia.
      now split.
Qed.

(** C6, amended: in a session whose sizes are consistent, on a device that
    serves every request, when every section of index [0 .. i] has a name
    that lies, with its NUL, within the first read at its offset, section [i]
    is named [sectname] and no section below [i] is, [mod_findsection]
    returns [i]; the capacity of the working buffer is unchanged and the
    buffer starts with [sectname]. *)
Theorem findsection_returns_lowest (fuel : nat) (E : machine)
    (li : mod_loadinfo_s) (sectname : list byte) (tr : list event) (i : Z) :
  e_shstrndx (ehdr li) <> SHN_UNDEF -> session_ok E li ->
  (forall off len, dev_fault E off len = false) ->
  0 <= i < e_shnum (ehdr li) ->
  (forall j, 0 <= j <= i ->
     exists off nm, name_offset E li j = Some off /\ name_at E off nm
       /\ zlen nm + 1 <= first_read li off
       /\ (nm = sectname <-> j = i)) ->
  exists buf tr',
    mod_findsection (S fuel) E li sectname tr
    = ret (Success i) (set_iobuffer buf (buflen li) li) tr'
    /\ cstring buf = sectname.
Proof.
  intros Hstr Hok Hdev Hi Hnames.
  assert (Hplain : memchr_nul sectname = false).
  { destruct (Hnames i) as (off & nm & _ & [Hnul _] & _ & Hnm); [lia|].
    now rewrite <- (proj2 Hnm eq_refl). }
  unfold mod_findsection.
  destruct (findsection_loop_lowest fuel E sectname Hplain Hdev (Z.to_nat i)
              (S (Z.to_nat (e_shnum (ehdr li)))) 0 li tr)
    as (buf & tr' & Hrun & Hcs); try assumption; try lia.
  - intros j Hj. destruct (Hnames j) as (off & nm & H1 & H2 & H3 & H4); [lia|].
    exists off, nm. split; [assumption|]. split; [assumption|].
    split; [assumption|]. split; intros Hn; [apply H4 in Hn | apply H4]; lia.
  - exists buf, tr'. rewrite Hrun. split; [|assumption]. do 3 f_equal. lia.
Qed.

Lemma findsection_returns_lowest_witness :
  exists buf tr',
    mod_findsection 1 three_device three_session (bytes_of ".data") []
    = ret (Success 1) (set_iobuffer buf 32 three_session) tr'
    /\ cstring buf = bytes_of ".data".
Proof.
  apply (findsection_returns_lowest 0 three_device three_session
           (bytes_of ".data") [] 1).
  - discriminate.
  - exact three_session_ok.
  - reflexivity.
  - simpl. lia.
  - intros j Hj. assert (Hcases : j = 0 \/ j = 1) by lia.
    destruct Hcases as [-> | ->].
    + exists 0, (bytes_of ".text"). split; [reflexivity|].
      split; [split; reflexivity|]. split; [vm_compute; congruence|].
      split; [discriminate | lia].
    + exists 6, (bytes_of ".data"). split; [reflexivity|].
      split; [split; reflexivity|]. split; [vm_compute; congruence|].
      split; reflexivity.
Defined.

(** [ENOENT] is not among the errors of the resolver. *)
Lemma sectname_loop_not_enoent (E : machine) (offset : Z) (fuel : nat) :
  forall (bytesread : Z) (li : mod_loadinfo_s) (tr : list event) e li' tr',
  sectname_loop fuel E offset bytesread li tr = (Some (Failure e), li', tr') ->
  e <> ENOENT.
Proof.
  induction fuel as [|fuel IH]; intros bytesread li tr e li' tr'; simpl;
    [discriminate|].
  destruct (_ && _); [intros [= <- <- <-]; discriminate|].
  destruct (mod_read E _ offset) as [chunk|e0|] eqn:Hread; [| |discriminate].
  2:{ intros [= <- <- <-]. apply mod_read_errno in Hread as [-> | ->]; discriminate. }
  destruct (poke _ _ _); [|discriminate].
  destruct (memchr_nul _); [discriminate|].
  match goal with |- context [mod_reallocbuffer E ?l ?k] =>
    destruct (mod_reallocbuffer_cases E l k) as [Hre|(li2 & Hre & _)];
    rewrite Hre end.
  - intros [= <- <- <-]. discriminate.
  - unfold OK. apply IH.
Qed.

Lemma mod_sectname_not_enoent (fuel : nat) (E : machine) (li : mod_loadinfo_s)
    (ix : Z) (tr : list event) e li' tr' :
  mod_sectname fuel E li ix tr = (Some (Failure e), li', tr') -> e <> ENOENT.
Proof.
  unfold mod_sectname. destruct (_ =? _); [intros [= <- <- <-]; discriminate|].
  destruct (shdr li) as [tbl|]; [|discriminate].
  destruct (shdr_at tbl _); [|discriminate].
  destruct (shdr_at tbl ix); [|discriminate].
  apply sectname_loop_not_enoent.
Qed.

Lemma findsection_loop_enoent (fuel : nat) (E : machine) (sectname : list byte) :
  forall (gas : nat) (i : Z) (li : mod_loadinfo_s) (tr : list event) li' tr',
  findsection_loop gas fuel E sectname i li tr = ret (Failure ENOENT) li' tr' ->
  scan_unmatched (Z.to_nat (e_shnum (ehdr li) - i)) fuel E sectname i li tr
  = Some (li', tr').
Proof.
  induction gas as [|gas IH]; intros i li tr li' tr'; cbn [findsection_loop];
    [discriminate|].
  destruct (i <? e_shnum (ehdr li)) eqn:Hi.
  - apply Z.ltb_lt in Hi.
    replace (Z.to_nat (e_shnum (ehdr li) - i))
      with (S (Z.to_nat (e_shnum (ehdr li) - (i + 1)))) by lia.
    cbn [scan_unmatched].
    destruct (mod_sectname fuel E li i tr) as [[[[u|e|]|] li1] tr1] eqn:Hrun;
      try discriminate.
    + destruct (strcmp_eq0 (iobuffer li1) sectname); [discriminate|].
      apply mod_sectname_frame in Hrun as (_ & He & _). rewrite <- He.
      apply IH.
    + intros [= -> <- <-]. now apply mod_sectname_not_enoent in Hrun.
  - apply Z.ltb_ge in Hi. intros [= <- <-].
    now replace (Z.to_nat (e_shnum (ehdr li) - i)) with 0%nat by lia.
Qed.

Lemma findsection_loop_propagates (fuel : nat) (E : machine)
    (sectname : list byte) :
  forall (k gas : nat) (i : Z) (li : mod_loadinfo_s) (tr : list event)
         li_k tr_k e li' tr',
  (k < gas)%nat -> i + Z.of_nat k < e_shnum (ehdr li) ->
  scan_unmatched k fuel E sectname i li tr = Some (li_k, tr_k) ->
  mod_sectname fuel E li_k (i + Z.of_nat k) tr_k = ret (Failure e) li' tr' ->
  findsection_loop gas fuel E sectname i li tr = ret (Failure e) li' tr'.
Proof.
  induction k as [|k IH]; intros gas i li tr li_k tr_k e li' tr' Hgas Hnum;
    (destruct gas as [|gas]; [lia|]); cbn [scan_unmatched findsection_loop];
    (destruct (i <? e_shnum (ehdr li)) eqn:Hi; [|apply Z.ltb_ge in Hi; lia]).
  - intros [= <- <-]. rewrite Z.add_0_r. now intros ->.
  - destruct (mod_sectname fuel E li i tr) as [[[[u|e0|]|] li1] tr1] eqn:Hrun;
      try discriminate.
    destruct (strcmp_eq0 (iobuffer li1) sectname); [discriminate|].
    intros Hscan Hfail. apply (IH gas (i + 1) li1 tr1 li_k tr_k); try lia.
    + apply mod_sectname_frame in Hrun as (_ & -> & _). lia.
    + assumption.
    + now replace (i + 1 + Z.of_nat k) with (i + Z.of_nat (S k)) by lia.
Qed.

(** C7: [mod_findsection] returns [ENOENT] only when every section of index
    [0 .. e_shnum) has been resolved and compared without a match; and when
    the resolver fails on section [k], after the sections below [k] resolved
    and did not match, that failure, which is never [ENOENT], is what
    [mod_findsection] returns, with the session and trace of that moment. *)
Theorem findsection_enoent_means_full_scan (fuel : nat) (E : machine)
    (li : mod_loadinfo_s) (sectname : list byte) (tr : list event) :
  (forall li' tr',
     mod_findsection fuel E li sectname tr = ret (Failure ENOENT) li' tr' ->
     scan_unmatched (Z.to_nat (e_shnum (ehdr li))) fuel E sectname 0 li tr
     = Some (li', tr'))
  /\ (forall k li_k tr_k e li' tr',
        0 <= k < e_shnum (ehdr li) ->
        scan_unmatched (Z.to_nat k) fuel E sectname 0 li tr = Some (li_k, tr_k) ->
        mod_sectname fuel E li_k k tr_k = ret (Failure e) li' tr' ->
        mod_findsection fuel E li sectname tr = ret (Failure e) li' tr'
        /\ e <> ENOENT).
Proof.
  split.
  - intros li' tr' Hrun. apply findsection_loop_enoent in Hrun.
    now rewrite Z.sub_0_r in Hrun.
  - intros k li_k tr_k e li' tr' Hk Hscan Hfail. split.
    + unfold mod_findsection.
      apply (findsection_loop_propagates fuel E sectname (Z.to_nat k) _ 0 li tr
               li_k tr_k); try lia; try assumption.
      now replace (0 + Z.of_nat (Z.to_nat k)) with k by lia.
    + now apply mod_sectname_not_enoent in Hfail.
Qed.

Lemma findsection_enoent_means_full_scan_witness :
  (exists li' tr',
     scan_unmatched 3 1 three_device (bytes_of ".bss") 0 three_session []
     = Some (li', tr'))
  /\ mod_findsection 1 stray_device stray_session (bytes_of ".data") []
     = ret (Failure EINVAL) stray_session []
  /\ EINVAL <> ENOENT.
Proof.
  split.
  - eexists _, _.
    apply (proj1 (findsection_enoent_means_full_scan 1 three_device
                    three_session (bytes_of ".bss") [])).
    reflexivity.
  - apply (proj2 (findsection_enoent_means_full_scan 1 stray_device
                    stray_session (bytes_of ".data") [])
             0 stray_session [] EINVAL stray_session []).
    + simpl. lia.
    + reflexivity.
    + reflexivity.
Defined.

(** * The offset that is never advanced

    Every iteration of the loop of [mod_sectname] reads at the same file
    offset: the bytes stored behind those of the previous read are again the
    first bytes of the name. *)

Lemma readlen_bounds (E : machine) (li : mod_loadinfo_s) (offset bytesread : Z) :
  sizes_ok E li -> 0 <= offset < SIZE_MOD E -> 0 <= bytesread <= buflen li ->
  let readlen := size_t E (buflen li - bytesread) in
  let beyond := filelen li <? size_t E (offset + readlen) in
  beyond && (filelen li <=? offset) = false ->
  0 <= (if beyond then size_t E (filelen li - offset) else readlen)
    <= buflen li - bytesread.
Proof.
  intros [Hfl Hbl] Hoff Hbr readlen beyond Heof. subst beyond readlen.
  assert (Hr : size_t E (buflen li - bytesread) = buflen li - bytesread)
    by (apply size_t_id; lia).
  rewrite Hr in *.
  destruct (filelen li <? _) eqn:Hb; [|lia]. simpl in Heof.
  apply Z.leb_gt in Heof. apply Z.ltb_lt in Hb. rewrite size_t_id by lia.
  destruct (size_t_add_cases E offset (buflen li - bytesread)) as [Hs|Hs];
    try lia; rewrite Hs in Hb; lia.
Qed.

(** When no NUL follows [offset] in the file, the loop returns neither [OK]
    nor the end-of-file error, whatever the fuel: it is still running, or it
    has returned the error of a failed allocation or of a failed read. *)
Lemma sectname_loop_no_terminator (E : machine) (offset : Z) :
  0 <= CONFIG_MODULE_BUFFERINCR E -> 0 <= offset < SIZE_MOD E ->
  (forall len, memchr_nul (slice (dev_data E) offset len) = false) ->
  forall (fuel : nat) (bytesread : Z) (li : mod_loadinfo_s) (tr : list event),
  sizes_ok E li -> offset < filelen li -> 0 <= bytesread <= buflen li ->
  forall r li' tr', sectname_loop fuel E offset bytesread li tr = (r, li', tr') ->
  r <> Some OK /\ r <> Some (Failure EINVAL).
Proof.
  intros Hincr Hoff Hnonul.
  induction fuel as [|fuel IH]; intros bytesread li tr Hsz Hin Hbr r li' tr';
    cbn [sectname_loop].
  - intros [= <- <- <-]. split; discriminate.
  - pose proof (readlen_bounds E li offset bytesread Hsz Hoff Hbr) as Hlen.
    cbv zeta in Hlen.
    destruct (_ && (filelen li <=? offset)) eqn:Heof.
    { apply andb_prop in Heof as [_ Heof]. apply Z.leb_le in Heof. lia. }
    specialize (Hlen eq_refl).
    match type of Hlen with 0 <= ?x <= _ => set (readlen := x) in * end.
    destruct (mod_read E readlen offset) as [chunk|e|] eqn:Hread.
    2:{ intros [= <- <- <-]. split; [discriminate|].
        apply mod_read_errno in Hread as [-> | ->]; discriminate. }
    2:{ intros [= <- <- <-]. split; discriminate. }
    apply mod_read_Success in Hread as (Hdata & Hchunk & _).
    destruct (poke (iobuffer li) bytesread chunk) as [buf|] eqn:Hpoke.
    2:{ intros [= <- <- <-]. split; discriminate. }
    cbn [iobuffer set_iobuffer].
    apply slice_poke in Hpoke. rewrite Hchunk in Hpoke.
    rewrite Hpoke, Hdata, Hnonul.
    match goal with |- context [mod_reallocbuffer E ?l ?k] =>
      destruct (mod_reallocbuffer_cases E l k)
        as [Hre|(li2 & Hre & Hb2 & Hr2 & _ & Hf2 & _)]; rewrite Hre end.
    { intros [= <- <- <-]. split; discriminate. }
    unfold OK at 1. cbn [buflen filelen set_iobuffer] in Hb2, Hf2.
    destruct Hsz as [Hfl Hbl]. apply IH.
    + split; [rewrite Hf2|]; assumption.
    + now rewrite Hf2.
    + rewrite size_t_id by lia. lia.
Qed.

(** C1: the name [.shstrtab] starts at offset 81 of a 90-byte file and no NUL
    follows it.  The loop does not reach the end-of-file test: it reads the
    start of the name again and again, grows the buffer each time, and
    returns [ENOMEM] when the heap refuses the next growth. *)
Theorem sectname_unterminated_exhausts_heap :
  name_offset open_device open_session 1 = Some 81
  /\ 81 < filelen open_session
  /\ memchr_nul (slice (dev_data open_device) 81 9) = false
  /\ let '(r, li', tr') := mod_sectname 6 open_device open_session 1 [] in
     r = Some (Failure ENOMEM)
     /\ buflen li' = 24
     /\ tr' = [EvRead 0 8 8 81; EvRealloc 12; EvRead 8 4 12 81; EvRealloc 16;
               EvRead 12 4 16 81; EvRealloc 20; EvRead 16 4 20 81; EvRealloc 24;
               EvRead 20 4 24 81; EvRealloc 28].
Proof. vm_compute. repeat split; congruence. Qed.

(** C2: [text] and its NUL take 5 bytes, the buffer has 4.  After one growth
    the resolver returns [OK], but the second read started at the offset of
    the first: the buffer holds [texttext], not [text]. *)
Theorem sectname_growth_duplicates_bytes :
  name_offset short_device short_session 0 = Some 0
  /\ name_at short_device 0 (bytes_of "text")
  /\ zlen (bytes_of "text") + 1 = buflen short_session + 1
  /\ let '(r, li', tr') := mod_sectname 2 short_device short_session 0 [] in
     r = Some OK
     /\ tr' = [EvRead 0 4 4 0; EvRealloc 12; EvRead 4 8 12 0]
     /\ cstring (iobuffer li') = bytes_of "texttext".
Proof. vm_compute. repeat split; congruence. Qed.

(** C8: the first search for [text] misses section 0, whose name it resolved
    as [texttext], and returns [ENOENT]; it leaves a buffer of 12 bytes, with
    which the same search on the same file returns index 0. *)
Theorem findsection_twice_differs :
  let '(r1, li1, tr1) :=
    mod_findsection 2 short_device short_session (bytes_of "text") [] in
  let '(r2, li2, tr2) :=
    mod_findsection 2 short_device li1 (bytes_of "text") tr1 in
  r1 = Some (Failure ENOENT) /\ buflen li1 = 12
  /\ r2 = Some (Success 0)
  /\ filelen li1 = filelen short_session /\ ehdr li1 = ehdr short_session
  /\ shdr li1 = shdr short_session.
Proof. vm_compute. repeat split; congruence. Qed.

(** The same for [mod_sectname]: a name that starts inside the file and has no
    NUL after it never makes the function return [OK] or the end-of-file
    error. *)
Lemma mod_sectname_no_terminator (fuel : nat) (E : machine)
    (li : mod_loadinfo_s) (ix : Z) (tr : list event) (offset : Z) :
  0 <= CONFIG_MODULE_BUFFERINCR E -> sizes_ok E li ->
  e_shstrndx (ehdr li) <> SHN_UNDEF ->
  name_offset E li ix = Some offset -> offset < filelen li ->
  (forall len, memchr_nul (slice (dev_data E) offset len) = false) ->
  forall r li' tr', mod_sectname fuel E li ix tr = (r, li', tr') ->
  r <> Some OK /\ r <> Some (Failure EINVAL).
Proof.
  intros Hincr Hsz Hstr Hoff Hin Hnonul r li' tr'.
  unfold name_offset in Hoff. unfold mod_sectname.
  destruct (e_shstrndx (ehdr li) =? SHN_UNDEF) eqn:H0;
    [apply Z.eqb_eq in H0; contradiction|].
  destruct (shdr li) as [tbl|]; [|discriminate].
  destruct (shdr_at tbl (e_shstrndx (ehdr li))) as [shstr|]; [|discriminate].
  destruct (shdr_at tbl ix) as [sh|]; [|discriminate].
  injection Hoff as Hoff. rewrite Hoff.
  apply sectname_loop_no_terminator; try assumption.
  - rewrite <- Hoff. apply size_t_range. now apply (sizes_ok_pos E li).
  - destruct Hsz. lia.
Qed.

(** * Further properties of the resolver *)

Lemma readlen_within_file (E : machine) (li : mod_loadinfo_s) (offset bytesread : Z) :
  sizes_ok E li -> 0 <= offset < SIZE_MOD E -> 0 <= bytesread <= buflen li ->
  let readlen := size_t E (buflen li - bytesread) in
  let beyond := filelen li <? size_t E (offset + readlen) in
  beyond && (filelen li <=? offset) = false ->
  offset + (if beyond then size_t E (filelen li - offset) else readlen)
    <= filelen li
  \/ SIZE_MOD E <= offset + (buflen li - bytesread).
Proof.
  intros [Hfl Hbl] Hoff Hbr readlen beyond Heof. subst beyond readlen.
  assert (Hr : size_t E (buflen li - bytesread) = buflen li - bytesread)
    by (apply size_t_id; lia).
  rewrite Hr in *.
  destruct (size_t_add_cases E offset (buflen li - bytesread)) as [Hs|Hs];
    try lia; [|right; pose proof (size_t_range E (offset + (buflen li - bytesread)));
               lia].
  rewrite Hs in *.
  destruct (filelen li <? _) eqn:Hb.
  - simpl in Heof. apply Z.leb_gt in Heof. rewrite size_t_id by lia. left. lia.
  - apply Z.ltb_ge in Hb. left. lia.
Qed.

Lemma sectname_loop_events (E : machine) (offset : Z) :
  0 <= CONFIG_MODULE_BUFFERINCR E -> 0 <= offset < SIZE_MOD E ->
  forall (fuel : nat) (bytesread : Z) (li : mod_loadinfo_s) (tr : list event),
  sizes_ok E li -> 0 <= bytesread <= buflen li ->
  forall r li' tr', sectname_loop fuel E offset bytesread li tr = (r, li', tr') ->
  exists evs, tr' = tr ++ evs
    /\ Forall (resolver_event E (filelen li) offset) evs.
Proof.
  intros Hincr Hoff.
  induction fuel as [|fuel IH]; intros bytesread li tr Hsz Hbr r li' tr';
    cbn [sectname_loop].
  - intros [= <- <- <-]. exists []. now rewrite app_nil_r.
  - pose proof (readlen_bounds E li offset bytesread Hsz Hoff Hbr) as Hlen.
    pose proof (readlen_within_file E li offset bytesread Hsz Hoff Hbr) as Hin.
    cbv zeta in Hlen, Hin.
    destruct (_ && (filelen li <=? offset)) eqn:Heof.
    { intros [= <- <- <-]. exists []. now rewrite app_nil_r. }
    specialize (Hlen eq_refl). specialize (Hin eq_refl).
    match type of Hlen with 0 <= ?x <= _ => set (readlen := x) in * end.
    assert (Hev : resolver_event E (filelen li) offset
                    (EvRead bytesread readlen (buflen li) offset))
      by (simpl; split; [reflexivity | exact Hin]).
    destruct (mod_read E readlen offset) as [chunk|e|] eqn:Hread;
      try (intros [= <- <- <-]; eexists; split; [reflexivity | now constructor]).
    destruct (poke (iobuffer li) bytesread chunk) as [buf|] eqn:Hpoke;
      try (intros [= <- <- <-]; eexists; split; [reflexivity | now constructor]).
    destruct (memchr_nul _);
      try (intros [= <- <- <-]; eexists; split; [reflexivity | now constructor]).
    match goal with |- context [mod_reallocbuffer E ?l ?k] =>
      destruct (mod_reallocbuffer_cases E l k)
        as [Hre|(li2 & Hre & Hb2 & Hr2 & _ & Hf2 & _)]; rewrite Hre end.
    { intros [= <- <- <-]. eexists. rewrite <- app_assoc. split; [reflexivity|].
      constructor; [assumption|]. constructor; [exact I | constructor]. }
    unfold OK at 1. cbn [buflen filelen set_iobuffer] in Hb2, Hf2.
    destruct Hsz as [Hfl Hbl]. intros Hrun.
    apply IH in Hrun as (evs & -> & Hevs).
    + eexists. rewrite <- !app_assoc. split; [reflexivity|]. simpl.
      constructor; [assumption|]. constructor; [exact I|].
      now rewrite Hf2 in Hevs.
    + split; [rewrite Hf2|]; assumption.
    + rewrite size_t_id by lia. lia.
Qed.

Lemma resolver_event_is_read_at (E : machine) (len_file offset : Z) (ev : event) :
  resolver_event E len_file offset ev -> is_read_at offset ev.
Proof. destruct ev; simpl; tauto. Qed.

Lemma is_read_at_never_malloc (offset : Z) (ev : event) :
  is_read_at offset ev -> never_malloc ev.
Proof. destruct ev; simpl; tauto. Qed.

Lemma mod_sectname_events (fuel : nat) (E : machine) (li : mod_loadinfo_s)
    (ix : Z) (tr : list event) r li' tr' :
  0 <= CONFIG_MODULE_BUFFERINCR E -> sizes_ok E li ->
  mod_sectname fuel E li ix tr = (r, li', tr') ->
  match name_offset E li ix with
  | Some offset =>
      exists evs, tr' = tr ++ evs
        /\ Forall (resolver_event E (filelen li) offset) evs
  | None => tr' = tr
  end.
Proof.
  intros Hincr Hsz. unfold mod_sectname, name_offset.
  destruct (_ =? _).
  { intros [= <- <- <-]. destruct (shdr li) as [tbl|]; [|reflexivity].
    destruct (shdr_at tbl _); [|reflexivity].
    destruct (shdr_at tbl ix); [|reflexivity].
    exists []. now rewrite app_nil_r. }
  destruct (shdr li) as [tbl|]; [|now intros [= <- <- <-]].
  destruct (shdr_at tbl (e_shstrndx (ehdr li))) as [shstr|];
    [|now intros [= <- <- <-]].
  destruct (shdr_at tbl ix) as [sh|]; [|now intros [= <- <- <-]].
  apply sectname_loop_events; try assumption.
  - apply size_t_range. now apply (sizes_ok_pos E li).
  - destruct Hsz. lia.
Qed.

(** X1: every read [mod_sectname] issues for a section starts at the file offset
    of the section's name: the offset is not advanced by the bytes already
    read.  The function grows the buffer but never calls [kmm_malloc]. *)
Theorem sectname_reads_at_name_offset (fuel : nat) (E : machine)
    (li : mod_loadinfo_s) (ix : Z) (tr : list event) (offset : Z) r li' tr' :
  0 <= CONFIG_MODULE_BUFFERINCR E -> sizes_ok E li ->
  name_offset E li ix = Some offset ->
  mod_sectname fuel E li ix tr = (r, li', tr') ->
  exists evs, tr' = tr ++ evs /\ Forall (is_read_at offset) evs.
Proof.
  intros Hincr Hsz Hoff Hrun.
  pose proof (mod_sectname_events fuel E li ix tr r li' tr' Hincr Hsz Hrun) as H.
  rewrite Hoff in H. destruct H as (evs & -> & Hevs).
  exists evs. split; [reflexivity|].
  eapply Forall_impl; [|exact Hevs]. apply resolver_event_is_read_at.
Qed.

(** X2: every read [mod_sectname] issues ends at or before [filelen], unless the
    name offset plus the remaining capacity of the buffer is not
    representable in [size_t] (then the test [offset + readlen > filelen] is
    made on the wrapped sum). *)
Theorem sectname_reads_within_file (fuel : nat) (E : machine)
    (li : mod_loadinfo_s) (ix : Z) (tr : list event) (offset : Z) r li' tr' :
  0 <= CONFIG_MODULE_BUFFERINCR E -> sizes_ok E li ->
  name_offset E li ix = Some offset ->
  mod_sectname fuel E li ix tr = (r, li', tr') ->
  exists evs, tr' = tr ++ evs
    /\ Forall (fun ev =>
         match ev with
         | EvRead pos len cap off =>
             off + len <= filelen li \/ SIZE_MOD E <= off + (cap - pos)
         | _ => True
         end) evs.
Proof.
  intros Hincr Hsz Hoff Hrun.
  pose proof (mod_sectname_events fuel E li ix tr r li' tr' Hincr Hsz Hrun) as H.
  rewrite Hoff in H. destruct H as (evs & -> & Hevs).
  exists evs. split; [reflexivity|].
  eapply Forall_impl; [|exact Hevs]. intros [pos len cap off| |]; simpl; tauto.
Qed.

Lemma three_sizes_ok : sizes_ok three_device three_session.
Proof.
  unfold sizes_ok. change (SIZE_MOD three_device) with 4294967296. simpl. lia.
Qed.

Lemma sectname_reads_at_name_offset_witness :
  exists evs, [EvRead 0 32 32 6] = [] ++ evs /\ Forall (is_read_at 6) evs.
Proof.
  apply (sectname_reads_at_name_offset 1 three_device three_session 1 [] 6
           (Some OK) (snd (fst (mod_sectname 1 three_device three_session 1 [])))).
  - simpl. lia.
  - exact three_sizes_ok.
  - reflexivity.
  - reflexivity.
Defined.

Lemma sectname_reads_within_file_witness :
  exists evs, [EvRead 0 32 32 6] = [] ++ evs
    /\ Forall (fun ev =>
         match ev with
         | EvRead pos len cap off =>
             off + len <= 140 \/ SIZE_MOD three_device <= off + (cap - pos)
         | _ => True
         end) evs.
Proof.
  apply (sectname_reads_within_file 1 three_device three_session 1 [] 6
           (Some OK) (snd (fst (mod_sectname 1 three_device three_session 1 [])))).
  - simpl. lia.
  - exact three_sizes_ok.
  - reflexivity.
  - reflexivity.
Defined.

(** * Further properties of the finder *)

Lemma mod_sectname_keeps (fuel : nat) (E : machine) (li : mod_loadinfo_s)
    (ix : Z) (tr : list event) r li' tr' :
  0 <= CONFIG_MODULE_BUFFERINCR E -> sizes_ok E li ->
  mod_sectname fuel E li ix tr = (r, li', tr') ->
  sizes_ok E li' /\ buflen li <= buflen li'
  /\ (buffer_ok li -> buffer_ok li')
  /\ exists evs, tr' = tr ++ evs /\ Forall never_malloc evs.
Proof.
  intros Hincr Hsz Hrun.
  pose proof (mod_sectname_events fuel E li ix tr r li' tr' Hincr Hsz Hrun) as Hev.
  assert (Hevs : exists evs, tr' = tr ++ evs /\ Forall never_malloc evs).
  { destruct (name_offset E li ix) as [offset|].
    - destruct Hev as (evs & -> & Hevs). exists evs. split; [reflexivity|].
      eapply Forall_impl; [|exact Hevs]. intros ev H.
      eapply is_read_at_never_malloc, resolver_event_is_read_at, H.
    - exists []. rewrite app_nil_r. now split. }
  assert (Hsame : li' = li -> sizes_ok E li' /\ buflen li <= buflen li'
            /\ (buffer_ok li -> buffer_ok li')
            /\ exists evs, tr' = tr ++ evs /\ Forall never_malloc evs).
  { intros ->. exact (conj Hsz (conj (Z.le_refl _) (conj (fun H => H) Hevs))). }
  revert Hrun. unfold mod_sectname.
  destruct (_ =? _); [intros [= _ <- _]; now apply Hsame|].
  destruct (shdr li) as [tbl|]; [|intros [= _ <- _]; now apply Hsame].
  destruct (shdr_at tbl _); [|intros [= _ <- _]; now apply Hsame].
  destruct (shdr_at tbl ix); [|intros [= _ <- _]; now apply Hsame].
  intros Hrun. apply sectname_loop_bounds in Hrun
    as (_ & Hsz' & Hgrow & _ & _ & _ & Hbuf); try assumption.
  - repeat split; try apply Hsz'; try assumption. intros Hok. now apply Hbuf.
  - apply size_t_range. now apply (sizes_ok_pos E li).
  - destruct Hsz. lia.
Qed.

Lemma findsection_loop_keeps (fuel : nat) (E : machine) (sectname : list byte) :
  0 <= CONFIG_MODULE_BUFFERINCR E ->
  forall (gas : nat) (i : Z) (li : mod_loadinfo_s) (tr : list event) r li' tr',
  sizes_ok E li ->
  findsection_loop gas fuel E sectname i li tr = (r, li', tr') ->
  filelen li' = filelen li /\ ehdr li' = ehdr li /\ shdr li' = shdr li
  /\ sizes_ok E li' /\ buflen li <= buflen li'
  /\ (buffer_ok li -> buffer_ok li')
  /\ exists evs, tr' = tr ++ evs /\ Forall never_malloc evs.
Proof.
  intros Hincr. induction gas as [|gas IH]; intros i li tr r li' tr' Hsz;
    cbn [findsection_loop].
  - intros [= <- <- <-]. repeat split; auto; try lia; try apply Hsz.
    exists []. now rewrite app_nil_r.
  - destruct (i <? e_shnum (ehdr li)).
    2:{ intros [= <- <- <-]. repeat split; auto; try lia; try apply Hsz.
        exists []. now rewrite app_nil_r. }
    destruct (mod_sectname fuel E li i tr) as [[r1 li1] tr1] eqn:Hrun.
    pose proof (mod_sectname_frame _ _ _ _ _ _ _ _ Hrun) as (Hf & He & Hs).
    pose proof (mod_sectname_keeps _ _ _ _ _ _ _ _ Hincr Hsz Hrun)
      as (Hsz1 & Hgrow & Hok & evs & -> & Hevs).
    assert (Hdone : forall r0, (r0, li1, tr ++ evs) = (r, li', tr') ->
              filelen li' = filelen li /\ ehdr li' = ehdr li /\ shdr li' = shdr li
              /\ sizes_ok E li' /\ buflen li <= buflen li'
              /\ (buffer_ok li -> buffer_ok li')
              /\ exists evs0, tr' = tr ++ evs0 /\ Forall never_malloc evs0).
    { intros r0 [= <- <- <-]. repeat split; auto; try apply Hsz1. now exists evs. }
    destruct r1 as [[u|e|]|]; try (apply Hdone).
    destruct (strcmp_eq0 (iobuffer li1) sectname); [apply Hdone|].
    intros Hrest. apply IH in Hrest
      as (Hf' & He' & Hs' & Hsz' & Hgrow' & Hok' & evs' & -> & Hevs');
      [|assumption].
    repeat split; try congruence; try lia; try apply Hsz'; auto.
    exists (evs ++ evs'). rewrite app_assoc. split; [reflexivity|].
    apply Forall_app. now split.
Qed.

(** X6: [mod_findsection] leaves the file length, the file header and the section
    header table of the session alone; the working buffer is the only thing
    it changes, its capacity never decreases and stays equal to the length of
    the buffer; and it never calls [kmm_malloc]. *)
Theorem findsection_keeps_session (fuel : nat) (E : machine)
    (li : mod_loadinfo_s) (sectname : list byte) (tr : list event) r li' tr' :
  0 <= CONFIG_MODULE_BUFFERINCR E -> sizes_ok E li ->
  mod_findsection fuel E li sectname tr = (r, li', tr') ->
  filelen li' = filelen li /\ ehdr li' = ehdr li /\ shdr li' = shdr li
  /\ buflen li <= buflen li'
  /\ (buffer_ok li -> buffer_ok li')
  /\ exists evs, tr' = tr ++ evs /\ Forall never_malloc evs.
Proof.
  intros Hincr Hsz Hrun. unfold mod_findsection in Hrun.
  apply findsection_loop_keeps in Hrun
    as (Hf & He & Hs & _ & Hgrow & Hok & Hevs); try assumption.
  now repeat split.
Qed.

Lemma findsection_keeps_session_witness :
  buflen three_session
  <= buflen (snd (fst (mod_findsection 1 three_device three_session
                         (bytes_of ".data") []))).
Proof.
  refine (proj1 (proj2 (proj2 (proj2
    (findsection_keeps_session 1 three_device three_session (bytes_of ".data")
       [] _ _ _ _ three_sizes_ok eq_refl))))).
  simpl. lia.
Defined.

Lemma findsection_loop_success (fuel : nat) (E : machine) (sectname : list byte) :
  forall (gas : nat) (i j : Z) (li : mod_loadinfo_s) (tr : list event) li' tr',
  findsection_loop gas fuel E sectname i li tr = ret (Success j) li' tr' ->
  i <= j < e_shnum (ehdr li)
  /\ strcmp_eq0 (iobuffer li') sectname = true
  /\ exists li_j tr_j,
       scan_unmatched (Z.to_nat (j - i)) fuel E sectname i li tr
       = Some (li_j, tr_j)
       /\ mod_sectname fuel E li_j j tr_j = ret OK li' tr'.
Proof.
  induction gas as [|gas IH]; intros i j li tr li' tr'; cbn [findsection_loop];
    [discriminate|].
  destruct (i <? e_shnum (ehdr li)) eqn:Hi; [|discriminate].
  apply Z.ltb_lt in Hi.
  destruct (mod_sectname fuel E li i tr) as [[[[[]|e|]|] li1] tr1] eqn:Hrun;
    try discriminate.
  destruct (strcmp_eq0 (iobuffer li1) sectname) eqn:Hcmp.
  - intros [= <- <- <-]. split; [lia|]. split; [assumption|].
    exists li, tr. rewrite Z.sub_diag. now split.
  - intros Hrest. apply IH in Hrest as (Hj & Hmatch & li_j & tr_j & Hscan & Hlast).
    apply mod_sectname_frame in Hrun as Hframe. destruct Hframe as (_ & He & _).
    rewrite He in Hj. split; [lia|]. split; [assumption|].
    exists li_j, tr_j. split; [|assumption].
    replace (Z.to_nat (j - i)) with (S (Z.to_nat (j - (i + 1)))) by lia.
    cbn [scan_unmatched]. now rewrite Hrun, Hcmp.
Qed.

(** X7: when [mod_findsection] returns an index, the index is that of a section
    of the table, the working buffer holds a string equal to the requested
    name, and every section below the index has been resolved and compared
    without a match: the index is that of the first section whose resolved
    name matches. *)
Theorem findsection_index_is_first_match (fuel : nat) (E : machine)
    (li : mod_loadinfo_s) (sectname : list byte) (tr : list event)
    (j : Z) li' tr' :
  mod_findsection fuel E li sectname tr = ret (Success j) li' tr' ->
  0 <= j < e_shnum (ehdr li)
  /\ strcmp_eq0 (iobuffer li') sectname = true
  /\ exists li_j tr_j,
       scan_unmatched (Z.to_nat j) fuel E sectname 0 li tr = Some (li_j, tr_j)
       /\ mod_sectname fuel E li_j j tr_j = ret OK li' tr'.
Proof.
  intros Hrun. apply findsection_loop_success in Hrun.
  now rewrite Z.sub_0_r in Hrun.
Qed.

Lemma findsection_index_is_first_match_witness :
  0 <= 1 < e_shnum (ehdr three_session)
  /\ strcmp_eq0
       (iobuffer (snd (fst (mod_findsection 1 three_device three_session
                              (bytes_of ".data") []))))
       (bytes_of ".data") = true.
Proof.
  refine (let H := findsection_index_is_first_match 1 three_device three_session
                     (bytes_of ".data") [] 1 _ _ eq_refl in
          conj (proj1 H) (proj1 (proj2 H))).
Defined.

Lemma findsection_loop_running (fuel : nat) (E : machine) (sectname : list byte) :
  forall (gas : nat) (i : Z) (li : mod_loadinfo_s) (tr : list event) li' tr',
  (Z.to_nat (e_shnum (ehdr li) - i) < gas)%nat ->
  findsection_loop gas fuel E sectname i li tr = running li' tr' ->
  exists k li_k tr_k,
    i <= k < e_shnum (ehdr li)
    /\ scan_unmatched (Z.to_nat (k - i)) fuel E sectname i li tr
       = Some (li_k, tr_k)
    /\ mod_sectname fuel E li_k k tr_k = running li' tr'.
Proof.
  induction gas as [|gas IH]; intros i li tr li' tr' Hgas; [lia|].
  cbn [findsection_loop].
  destruct (i <? e_shnum (ehdr li)) eqn:Hi; [|discriminate].
  apply Z.ltb_lt in Hi.
  destruct (mod_sectname fuel E li i tr) as [[[[[]|e|]|] li1] tr1] eqn:Hrun;
    try discriminate.
  - destruct (strcmp_eq0 (iobuffer li1) sectname) eqn:Hcmp; [discriminate|].
    apply mod_sectname_frame in Hrun as Hframe. destruct Hframe as (_ & He & _).
    intros Hrest. apply IH in Hrest as (k & li_k & tr_k & Hk & Hscan & Hlast);
      [|rewrite He; lia].
    rewrite He in Hk. exists k, li_k, tr_k. split; [lia|]. split; [|assumption].
    replace (Z.to_nat (k - i)) with (S (Z.to_nat (k - (i + 1)))) by lia.
    cbn [scan_unmatched]. now rewrite Hrun, Hcmp.
  - intros [= <- <-]. exists i, li, tr. rewrite Z.sub_diag.
    split; [lia|]. now split.
Qed.

(** X8: the loop of [mod_findsection] makes at most [e_shnum] iterations: if the
    function does not return, it is because the resolver, called on some
    section after all the sections below it were resolved and did not match,
    does not return. *)
Theorem findsection_stuck_only_in_resolver (fuel : nat) (E : machine)
    (li : mod_loadinfo_s) (sectname : list byte) (tr : list event) li' tr' :
  mod_findsection fuel E li sectname tr = running li' tr' ->
  exists k li_k tr_k,
    0 <= k < e_shnum (ehdr li)
    /\ scan_unmatched (Z.to_nat k) fuel E sectname 0 li tr = Some (li_k, tr_k)
    /\ mod_sectname fuel E li_k k tr_k = running li' tr'.
Proof.
  intros Hrun. apply findsection_loop_running in Hrun; [|lia].
  destruct Hrun as (k & li_k & tr_k & Hk & Hscan & Hlast).
  exists k, li_k, tr_k. now rewrite Z.sub_0_r in Hscan.
Qed.

Lemma findsection_stuck_only_in_resolver_witness :
  exists k li_k tr_k,
    0 <= k < e_shnum (ehdr open_session)
    /\ scan_unmatched (Z.to_nat k) 3 open_device (bytes_of "x") 0 open_session []
       = Some (li_k, tr_k)
    /\ mod_sectname 3 open_device li_k k tr_k
       = running
           (snd (fst (mod_findsection 3 open_device open_session (bytes_of "x") [])))
           (snd (mod_findsection 3 open_device open_session (bytes_of "x") [])).
Proof.
  apply (findsection_stuck_only_in_resolver 3 open_device open_session
           (bytes_of "x") []).
  reflexivity.
Defined.

(** * The loaded table *)

Lemma slice_slice {A : Type} (l : list A) (off n a b : Z) :
  0 <= off -> 0 <= a -> 0 <= b -> a + b <= n ->
  slice (slice l off n) a b = slice l (off + a) b.
Proof.
  intros Hoff Ha Hb Hn. unfold slice.
  rewrite skipn_firstn_comm, firstn_firstn, skipn_skipn.
  f_equal; [lia|]. f_equal. lia.
Qed.

Lemma shdr_table_size_exact (E : machine) (eh : Elf32_Ehdr) :
  target_ok E -> 0 <= e_shentsize eh < 65536 -> 0 <= e_shnum eh < 65536 ->
  shdr_table_size E eh = e_shentsize eh * e_shnum eh.
Proof.
  intros Hwide Hent Hnum. apply SIZE_MOD_wide in Hwide.
  unfold shdr_table_size.
  rewrite (size_t_id E (e_shentsize eh)), (size_t_id E (e_shnum eh)) by lia.
  apply size_t_id. nia.
Qed.

Lemma loadshdrs_OK (E : machine) (li : mod_loadinfo_s) (tr : list event) li' tr' :
  mod_loadshdrs E li tr = (OK, li', tr') ->
  let size := shdr_table_size E (ehdr li) in
  li' = set_shdr (Some (slice (dev_data E) (e_shoff (ehdr li)) size)) li
  /\ zlen (slice (dev_data E) (e_shoff (ehdr li)) size) = size
  /\ 0 <= e_shoff (ehdr li) /\ 1 <= e_shnum (ehdr li)
  /\ tr' = tr ++ [EvMalloc size; EvRead 0 size size (e_shoff (ehdr li))].
Proof.
  intros Hrun size. unfold mod_loadshdrs in Hrun. fold size in Hrun.
  destruct (e_shnum (ehdr li) <? 1) eqn:Hnum; [discriminate|].
  apply Z.ltb_ge in Hnum.
  destruct (filelen li <? _); [discriminate|].
  destruct (kmm_malloc E size) as [blk|] eqn:Halloc; [|discriminate].
  apply kmm_malloc_Some in Halloc.
  destruct (mod_read E size (e_shoff (ehdr li))) as [data|e|] eqn:Hread;
    try discriminate.
  apply mod_read_Success in Hread as (Hdata & Hlen & Hoff & _).
  rewrite poke_whole in Hrun by congruence.
  injection Hrun as <- <-. subst data. rewrite <- app_assoc.
  repeat split; try assumption; lia.
Qed.

Lemma loadshdrs_entry (E : machine) (li : mod_loadinfo_s)
    (tr : list event) li' tr' (i : Z) :
  target_ok E ->
  e_shentsize (ehdr li) = SIZEOF_SHDR -> e_shnum (ehdr li) < 65536 ->
  mod_loadshdrs E li tr = (OK, li', tr') ->
  0 <= i < e_shnum (ehdr li) ->
  exists tbl, shdr li' = Some tbl
    /\ shdr_at tbl i
       = Some (shdr_of_bytes
                 (slice (dev_data E) (e_shoff (ehdr li) + SIZEOF_SHDR * i)
                    SIZEOF_SHDR)).
Proof.
  intros Hwide Hent Hnum Hrun Hi.
  assert (Hsize : shdr_table_size E (ehdr li) = SIZEOF_SHDR * e_shnum (ehdr li)).
  { rewrite shdr_table_size_exact, Hent; try reflexivity; try assumption;
      rewrite ?Hent; unfold SIZEOF_SHDR; lia. }
  apply loadshdrs_OK in Hrun. cbv zeta in Hrun. rewrite Hsize in Hrun.
  destruct Hrun as (-> & Hlen & Hoff & Hn1 & _).
  eexists. split; [reflexivity|].
  unfold shdr_at. rewrite Hlen.
  destruct (0 <=? i) eqn:H0; [|apply Z.leb_gt in H0; lia].
  destruct (SIZEOF_SHDR * (i + 1) <=? SIZEOF_SHDR * e_shnum (ehdr li)) eqn:H1;
    [|apply Z.leb_gt in H1; unfold SIZEOF_SHDR in H1; lia].
  cbn [andb]. rewrite slice_slice by (unfold SIZEOF_SHDR; lia). reflexivity.
Qed.

(** X12: after a successful [mod_loadshdrs] on a header whose entries have the
    size of [Elf32_Shdr], every index below [e_shnum] lies inside the
    allocation, and the entry at index [i] is the header decoded from the 40
    bytes of the file at [e_shoff + 40 * i]. *)
Theorem loaded_table_entries (E : machine) (li : mod_loadinfo_s)
    (tr : list event) li' tr' (i : Z) :
  target_ok E ->
  e_shentsize (ehdr li) = SIZEOF_SHDR -> e_shnum (ehdr li) < 65536 ->
  mod_loadshdrs E li tr = (OK, li', tr') ->
  0 <= i < e_shnum (ehdr li) ->
  exists tbl, shdr li' = Some tbl
    /\ shdr_at tbl i
       = Some (shdr_of_bytes
                 (slice (dev_data E) (e_shoff (ehdr li) + SIZEOF_SHDR * i)
                    SIZEOF_SHDR)).
Proof. apply loadshdrs_entry. Qed.

Lemma three_loaded :
  mod_loadshdrs three_device three_fresh []
  = (OK, three_session, [EvMalloc 120; EvRead 0 120 120 20]).
Proof. reflexivity. Qed.

Lemma loaded_table_entries_witness :
  exists tbl, shdr three_session = Some tbl
    /\ shdr_at tbl 1
       = Some (shdr_of_bytes (slice (dev_data three_device) (20 + 40 * 1) 40)).
Proof.
  apply (loaded_table_entries three_device three_fresh []
           three_session [EvMalloc 120; EvRead 0 120 120 20] 1).
  - unfold target_ok. simpl. lia.
  - reflexivity.
  - simpl. lia.
  - exact three_loaded.
  - simpl. lia.
Defined.

Lemma mod_sectname_defined (fuel : nat) (E : machine) (li : mod_loadinfo_s)
    (ix : Z) (tr : list event) (tbl : list byte) r li' tr' :
  0 <= CONFIG_MODULE_BUFFERINCR E -> sizes_ok E li -> buffer_ok li ->
  shdr li = Some tbl ->
  shdr_at tbl (e_shstrndx (ehdr li)) <> None -> shdr_at tbl ix <> None ->
  mod_sectname fuel E li ix tr = (r, li', tr') -> r <> Some Undefined.
Proof.
  intros Hincr Hsz Hok Htbl Hstr Hix. unfold mod_sectname. rewrite Htbl.
  destruct (_ =? _); [intros [= <- _ _]; discriminate|].
  destruct (shdr_at tbl (e_shstrndx (ehdr li))); [|contradiction].
  destruct (shdr_at tbl ix); [|contradiction].
  intros Hrun. apply sectname_loop_bounds in Hrun
    as (_ & _ & _ & _ & _ & _ & Hbuf); try assumption.
  - now apply Hbuf.
  - apply size_t_range. now apply (sizes_ok_pos E li).
  - destruct Hsz. lia.
Qed.

Lemma findsection_loop_defined (fuel : nat) (E : machine) (sectname : list byte)
    (tbl : list byte) :
  0 <= CONFIG_MODULE_BUFFERINCR E ->
  forall (gas : nat) (i : Z) (li : mod_loadinfo_s) (tr : list event) r li' tr',
  0 <= i -> sizes_ok E li -> buffer_ok li -> shdr li = Some tbl ->
  shdr_at tbl (e_shstrndx (ehdr li)) <> None ->
  (forall k, 0 <= k < e_shnum (ehdr li) -> shdr_at tbl k <> None) ->
  findsection_loop gas fuel E sectname i li tr = (r, li', tr') ->
  r <> Some Undefined.
Proof.
  intros Hincr. induction gas as [|gas IH];
    intros i li tr r li' tr' Hi Hsz Hok Htbl Hstr Hall; cbn [findsection_loop].
  - intros [= <- _ _]. discriminate.
  - destruct (i <? e_shnum (ehdr li)) eqn:Hlt; [|intros [= <- _ _]; discriminate].
    apply Z.ltb_lt in Hlt.
    destruct (mod_sectname fuel E li i tr) as [[r1 li1] tr1] eqn:Hrun.
    pose proof (mod_sectname_defined _ _ _ _ _ _ _ _ _ Hincr Hsz Hok Htbl Hstr
                  (Hall i (conj Hi Hlt)) Hrun) as Hdef.
    pose proof (mod_sectname_frame _ _ _ _ _ _ _ _ Hrun) as (_ & He & Hs).
    pose proof (mod_sectname_keeps _ _ _ _ _ _ _ _ Hincr Hsz Hrun)
      as (Hsz1 & _ & Hok1 & _).
    destruct r1 as [[u|e|]|]; try (intros [= <- _ _]; discriminate).
    + destruct (strcmp_eq0 (iobuffer li1) sectname);
        [intros [= <- _ _]; discriminate|].
      apply IH; try rewrite He; try rewrite Hs; auto. lia.
    + now contradiction Hdef.
Qed.

(** X13: after a successful [mod_loadshdrs] on a header whose entries have the
    size of [Elf32_Shdr] and whose string table index is below [e_shnum],
    [mod_findsection] makes no access outside the table or the working
    buffer, whatever the name and the content of the file. *)
Theorem find_after_load_is_defined (fuel : nat) (E : machine)
    (li : mod_loadinfo_s) (tr : list event) li1 tr1
    (sectname : list byte) r li' tr' :
  target_ok E -> 0 <= CONFIG_MODULE_BUFFERINCR E ->
  sizes_ok E li -> buffer_ok li ->
  e_shentsize (ehdr li) = SIZEOF_SHDR -> e_shnum (ehdr li) < 65536 ->
  0 <= e_shstrndx (ehdr li) < e_shnum (ehdr li) ->
  mod_loadshdrs E li tr = (OK, li1, tr1) ->
  mod_findsection fuel E li1 sectname tr1 = (r, li', tr') ->
  r <> Some Undefined.
Proof.
  intros Hwide Hincr Hsz Hok Hent Hnum Hstr Hload Hfind.
  assert (Hentry : forall k, 0 <= k < e_shnum (ehdr li) ->
            exists tbl, shdr li1 = Some tbl /\ shdr_at tbl k <> None).
  { intros k Hk.
    destruct (loadshdrs_entry E li tr li1 tr1 k Hwide Hent Hnum Hload Hk)
      as (tbl & Htbl & Hat).
    exists tbl. split; [assumption|]. rewrite Hat. discriminate. }
  apply loadshdrs_OK in Hload as Hli1. destruct Hli1 as (Hli1 & _).
  destruct (Hentry _ Hstr) as (tbl & Htbl & Hs).
  assert (He : ehdr li1 = ehdr li) by (rewrite Hli1; reflexivity).
  unfold mod_findsection in Hfind.
  apply (findsection_loop_defined fuel E sectname tbl Hincr) in Hfind;
    try assumption; try lia.
  - rewrite Hli1. exact Hsz.
  - rewrite Hli1. exact Hok.
  - now rewrite He.
  - rewrite He. intros k Hk. destruct (Hentry k Hk) as (tbl' & Htbl' & Hk').
    congruence.
Qed.

Lemma find_after_load_is_defined_witness :
  fst (fst (mod_findsection 1 three_device three_session (bytes_of ".data")
              [EvMalloc 120; EvRead 0 120 120 20]))
  <> Some Undefined.
Proof.
  apply (find_after_load_is_defined 1 three_device three_fresh [] three_session
           [EvMalloc 120; EvRead 0 120 120 20] (bytes_of ".data")
           _
           (snd (fst (mod_findsection 1 three_device three_session
                        (bytes_of ".data") [EvMalloc 120; EvRead 0 120 120 20])))
           (snd (mod_findsection 1 three_device three_session
                   (bytes_of ".data") [EvMalloc 120; EvRead 0 120 120 20]))).
  - unfold target_ok. simpl. lia.
  - simpl. lia.
  - exact three_sizes_ok.
  - reflexivity.
  - reflexivity.
  - simpl. lia.
  - simpl. lia.
  - exact three_loaded.
  - reflexivity.
Defined.

(** X14: [mod_sectname] does not compare [e_shstrndx] with the size of the table:
    when, after a successful [mod_loadshdrs], the entry of the string table
    does not lie inside the allocated [e_shentsize * e_shnum] bytes (an index
    that is too large, or entries that are too small), [mod_findsection]
    reads that entry outside the table on its first iteration. *)
Theorem find_with_stray_strndx_is_undefined (fuel : nat) (E : machine)
    (li : mod_loadinfo_s) (tr : list event) li1 tr1 (sectname : list byte) :
  target_ok E ->
  0 <= e_shentsize (ehdr li) < 65536 -> e_shnum (ehdr li) < 65536 ->
  e_shstrndx (ehdr li) <> SHN_UNDEF ->
  e_shentsize (ehdr li) * e_shnum (ehdr li)
    < SIZEOF_SHDR * (e_shstrndx (ehdr li) + 1) ->
  mod_loadshdrs E li tr = (OK, li1, tr1) ->
  mod_findsection fuel E li1 sectname tr1 = ret Undefined li1 tr1.
Proof.
  intros Hwide Hent Hnum Hstr Hout Hload.
  apply loadshdrs_OK in Hload. cbv zeta in Hload.
  destruct Hload as (-> & Hlen & _ & Hn1 & _).
  rewrite shdr_table_size_exact in Hlen by (try assumption; lia).
  unfold mod_findsection. cbn [findsection_loop ehdr set_shdr].
  destruct (0 <? e_shnum (ehdr li)) eqn:H0; [|apply Z.ltb_ge in H0; lia].
  unfold mod_sectname. cbn [ehdr shdr set_shdr].
  destruct (e_shstrndx (ehdr li) =? SHN_UNDEF) eqn:H1;
    [apply Z.eqb_eq in H1; contradiction|].
  unfold shdr_at at 1. rewrite shdr_table_size_exact by (try assumption; lia).
  rewrite Hlen.
  destruct (SIZEOF_SHDR * (e_shstrndx (ehdr li) + 1)
            <=? e_shentsize (ehdr li) * e_shnum (ehdr li)) eqn:H2;
    [apply Z.leb_le in H2; lia|].
  rewrite andb_false_r. reflexivity.
Qed.

Lemma find_with_stray_strndx_is_undefined_witness :
  let li1 := set_shdr (Some three_table) far_index_fresh in
  mod_findsection 1 three_device li1 (bytes_of ".data")
    [EvMalloc 120; EvRead 0 120 120 20]
  = ret Undefined li1 [EvMalloc 120; EvRead 0 120 120 20].
Proof.
  apply (find_with_stray_strndx_is_undefined 1 three_device far_index_fresh []).
  - unfold target_ok. simpl. lia.
  - simpl. lia.
  - simpl. lia.
  - discriminate.
  - simpl. lia.
  - reflexivity.
Defined.

(** * Edges of the resolver and of the finder *)

(** X3: a name offset at or beyond the end of the file: with a non-empty buffer
    and an offset that does not wrap with the capacity, [mod_sectname]
    returns [EINVAL] before any read and leaves the session as it was. *)
Theorem sectname_name_beyond_file (fuel : nat) (E : machine)
    (li : mod_loadinfo_s) (ix : Z) (tr : list event) (offset : Z) :
  e_shstrndx (ehdr li) <> SHN_UNDEF -> sizes_ok E li ->
  name_offset E li ix = Some offset ->
  filelen li <= offset -> 1 <= buflen li -> offset + buflen li < SIZE_MOD E ->
  mod_sectname (S fuel) E li ix tr = ret (Failure EINVAL) li tr.
Proof.
  intros Hstr [Hfl Hbl] Hoff Heof Hbuf Hfit.
  unfold name_offset in Hoff. unfold mod_sectname.
  destruct (e_shstrndx (ehdr li) =? SHN_UNDEF); [reflexivity|].
  destruct (shdr li) as [tbl|]; [|discriminate].
  destruct (shdr_at tbl (e_shstrndx (ehdr li))) as [shstr|]; [|discriminate].
  destruct (shdr_at tbl ix) as [sh|]; [|discriminate].
  injection Hoff as ->. cbn [sectname_loop].
  rewrite Z.sub_0_r, (size_t_id E (buflen li)), (size_t_id E (offset + _)) by lia.
  destruct (filelen li <? offset + buflen li) eqn:H1;
    [|apply Z.ltb_ge in H1; lia].
  destruct (filelen li <=? offset) eqn:H2; [|apply Z.leb_gt in H2; lia].
  reflexivity.
Qed.

Lemma sectname_name_beyond_file_witness :
  mod_sectname 1 stray_device stray_session 0 []
  = ret (Failure EINVAL) stray_session [].
Proof.
  apply (sectname_name_beyond_file 0 stray_device stray_session 0 [] 5000).
  - discriminate.
  - unfold sizes_ok. change (SIZE_MOD stray_device) with 4294967296. simpl. lia.
  - reflexivity.
  - simpl. lia.
  - simpl. lia.
  - change (SIZE_MOD stray_device) with 4294967296. simpl. lia.
Defined.

(** X4: when the name offset plus the capacity of the buffer is not representable
    in [size_t], the test [offset + readlen > filelen] is made on the wrapped
    sum: for a wrapped sum within [filelen] the function does not return the
    end-of-file error but asks the reader for [buflen] bytes at that offset,
    and, the file being shorter than [2 ^ SIZE_BITS] bytes, returns the
    reader's error. *)
Theorem sectname_wrapped_offset_is_read (fuel : nat) (E : machine)
    (li : mod_loadinfo_s) (ix : Z) (tr : list event) (offset : Z) :
  e_shstrndx (ehdr li) <> SHN_UNDEF -> sizes_ok E li ->
  name_offset E li ix = Some offset ->
  SIZE_MOD E <= offset + buflen li ->
  offset + buflen li - SIZE_MOD E <= filelen li ->
  zlen (dev_data E) < SIZE_MOD E ->
  exists e, (e = EIO \/ e = ENODATA)
    /\ mod_sectname (S fuel) E li ix tr
       = ret (Failure e) li (tr ++ [EvRead 0 (buflen li) (buflen li) offset]).
Proof.
  intros Hstr [Hfl Hbl] Hoff Hwrap Hin Hfile.
  unfold name_offset in Hoff. unfold mod_sectname.
  destruct (e_shstrndx (ehdr li) =? SHN_UNDEF) eqn:H0;
    [apply Z.eqb_eq in H0; contradiction|].
  destruct (shdr li) as [tbl|]; [|discriminate].
  destruct (shdr_at tbl (e_shstrndx (ehdr li))) as [shstr|]; [|discriminate].
  destruct (shdr_at tbl ix) as [sh|]; [|discriminate].
  injection Hoff as Hoff.
  assert (Hrange : 0 <= offset < SIZE_MOD E)
    by (rewrite <- Hoff; apply size_t_range; lia).
  rewrite Hoff. cbn [sectname_loop].
  rewrite Z.sub_0_r, (size_t_id E (buflen li)) by lia.
  destruct (size_t_add_cases E offset (buflen li)) as [Hs|Hs]; try lia;
    [pose proof (size_t_range E (offset + buflen li)); lia|].
  rewrite Hs.
  destruct (filelen li <? offset + buflen li - SIZE_MOD E) eqn:H1;
    [apply Z.ltb_lt in H1; lia|].
  cbn [andb].
  destruct (mod_read E (buflen li) offset) as [chunk|e|] eqn:Hread.
  - apply mod_read_Success in Hread as (_ & _ & _ & _ & Hbad). lia.
  - exists e. split; [now apply mod_read_errno in Hread | reflexivity].
  - now apply mod_read_defined in Hread.
Qed.

Lemma sectname_wrapped_offset_is_read_witness :
  exists e, (e = EIO \/ e = ENODATA)
    /\ mod_sectname 1 high_device high_session 1 []
       = ret (Failure e) high_session [EvRead 0 32 32 4294967288].
Proof.
  apply (sectname_wrapped_offset_is_read 0 high_device high_session 1 []
           4294967288).
  - discriminate.
  - unfold sizes_ok. change (SIZE_MOD high_device) with 4294967296. simpl. lia.
  - reflexivity.
  - change (SIZE_MOD high_device) with 4294967296. simpl. lia.
  - change (SIZE_MOD high_device) with 4294967296. simpl. lia.
  - change (SIZE_MOD high_device) with 4294967296. vm_compute. reflexivity.
Defined.

(** X10: headers without anything to search: with no section the finder answers
    [ENOENT], and with sections but no section name string table it answers
    [EINVAL] on the first section, whatever the name; in both cases without
    touching the table, the buffer or the file. *)
Theorem findsection_degenerate_headers (fuel : nat) (E : machine)
    (li : mod_loadinfo_s) (sectname : list byte) (tr : list event) :
  (e_shnum (ehdr li) <= 0 ->
   mod_findsection fuel E li sectname tr = ret (Failure ENOENT) li tr)
  /\ (1 <= e_shnum (ehdr li) -> e_shstrndx (ehdr li) = SHN_UNDEF ->
      mod_findsection fuel E li sectname tr = ret (Failure EINVAL) li tr).
Proof.
  unfold mod_findsection. cbn [findsection_loop]. split.
  - intros Hnum. destruct (0 <? e_shnum (ehdr li)) eqn:H0;
      [apply Z.ltb_lt in H0; lia | reflexivity].
  - intros Hnum Hstr. destruct (0 <? e_shnum (ehdr li)) eqn:H0;
      [|apply Z.ltb_ge in H0; lia].
    unfold mod_sectname. rewrite Hstr. reflexivity.
Qed.

Lemma findsection_degenerate_headers_witness :
  mod_findsection 1 healthy_device no_section_session (bytes_of ".text") []
  = ret (Failure ENOENT) no_section_session []
  /\ mod_findsection 1 healthy_device one_entry_session (bytes_of ".text") []
     = ret (Failure EINVAL) one_entry_session [].
Proof.
  split.
  - apply (proj1 (findsection_degenerate_headers 1 healthy_device
                    no_section_session (bytes_of ".text") [])).
    simpl. lia.
  - apply (proj2 (findsection_degenerate_headers 1 healthy_device
                    one_entry_session (bytes_of ".text") [])).
    + simpl. lia.
    + reflexivity.
Defined.

(** * Termination *)

Lemma sectname_loop_returns (E : machine) (offset : Z) :
  0 < CONFIG_MODULE_BUFFERINCR E ->
  forall (fuel : nat) (bytesread : Z) (li : mod_loadinfo_s) (tr : list event),
  (Z.to_nat (SIZE_MOD E - buflen li) < fuel)%nat ->
  fst (fst (sectname_loop fuel E offset bytesread li tr)) <> None.
Proof.
  intros Hincr. induction fuel as [|fuel IH]; intros bytesread li tr Hfuel; [lia|].
  cbn [sectname_loop].
  destruct (_ && _); [discriminate|].
  destruct (mod_read E _ offset); try discriminate.
  destruct (poke _ _ _); [|discriminate].
  destruct (memchr_nul _); [discriminate|].
  match goal with |- context [mod_reallocbuffer E ?l ?k] =>
    destruct (mod_reallocbuffer_cases E l k)
      as [Hre|(li2 & Hre & Hb2 & Hr2 & _)]; rewrite Hre end; [discriminate|].
  unfold OK at 1. cbn [buflen set_iobuffer] in Hb2. apply IH. lia.
Qed.

Lemma mod_sectname_returns (fuel : nat) (E : machine) (li : mod_loadinfo_s)
    (ix : Z) (tr : list event) :
  0 < CONFIG_MODULE_BUFFERINCR E ->
  (Z.to_nat (SIZE_MOD E - buflen li) < fuel)%nat ->
  fst (fst (mod_sectname fuel E li ix tr)) <> None.
Proof.
  intros Hincr Hfuel. unfold mod_sectname.
  destruct (_ =? _); [discriminate|].
  destruct (shdr li) as [tbl|]; [|discriminate].
  destruct (shdr_at tbl _); [|discriminate].
  destruct (shdr_at tbl ix); [|discriminate].
  now apply sectname_loop_returns.
Qed.

Lemma findsection_loop_returns (fuel : nat) (E : machine) (sectname : list byte) :
  0 < CONFIG_MODULE_BUFFERINCR E ->
  forall (gas : nat) (i : Z) (li : mod_loadinfo_s) (tr : list event),
  sizes_ok E li ->
  (Z.to_nat (SIZE_MOD E - buflen li) < fuel)%nat ->
  (Z.to_nat (e_shnum (ehdr li) - i) < gas)%nat ->
  fst (fst (findsection_loop gas fuel E sectname i li tr)) <> None.
Proof.
  intros Hincr. induction gas as [|gas IH]; intros i li tr Hsz Hfuel Hgas; [lia|].
  cbn [findsection_loop].
  destruct (i <? e_shnum (ehdr li)) eqn:Hi; [|discriminate].
  apply Z.ltb_lt in Hi.
  pose proof (mod_sectname_returns fuel E li i tr Hincr Hfuel) as Hret.
  destruct (mod_sectname fuel E li i tr) as [[r1 li1] tr1] eqn:Hrun.
  pose proof (mod_sectname_frame _ _ _ _ _ _ _ _ Hrun) as (_ & He & _).
  assert (Hincr0 : 0 <= CONFIG_MODULE_BUFFERINCR E) by lia.
  pose proof (mod_sectname_keeps _ _ _ _ _ _ _ _ Hincr0 Hsz Hrun)
    as (Hsz1 & Hgrow & _).
  destruct r1 as [[u|e|]|]; try discriminate; [|now contradiction Hret].
  destruct (strcmp_eq0 (iobuffer li1) sectname); [discriminate|].
  apply IH; [assumption|lia|rewrite He; lia].
Qed.

(** X9: with a positive growth step [mod_findsection] always returns: each
    iteration of the resolver's loop that does not return has grown the
    buffer, the allocator cannot serve a size that [size_t] cannot hold, and
    the finder makes at most [e_shnum] calls of the resolver.  An iteration
    bound above [2 ^ SIZE_BITS - buflen] is never reached. *)
Theorem findsection_returns (fuel : nat) (E : machine) (li : mod_loadinfo_s)
    (sectname : list byte) (tr : list event) :
  0 < CONFIG_MODULE_BUFFERINCR E -> sizes_ok E li ->
  (Z.to_nat (SIZE_MOD E - buflen li) < fuel)%nat ->
  fst (fst (mod_findsection fuel E li sectname tr)) <> None.
Proof.
  intros Hincr Hsz Hfuel. unfold mod_findsection.
  apply findsection_loop_returns; try assumption. lia.
Qed.

Lemma findsection_returns_witness :
  fst (fst (mod_findsection (Z.to_nat 4294967296) three_device three_session
              (bytes_of ".data") []))
  <> None.
Proof.
  apply (findsection_returns (Z.to_nat 4294967296) three_device three_session).
  - cbn [CONFIG_MODULE_BUFFERINCR three_device]. lia.
  - exact three_sizes_ok.
  - change (SIZE_MOD three_device) with 4294967296.
    cbn [buflen three_session]. lia.
Defined.

(** * Searching twice *)

Lemma cstring_app_nul (a b : list byte) :
  memchr_nul a = true -> cstring (a ++ b) = cstring a.
Proof.
  induction a as [|x a IH]; simpl; [discriminate|].
  destruct (is_nul x); [reflexivity|]. simpl. intros H. now rewrite IH.
Qed.

(** A run of the loop that ends with the capacity it started with made one
    read at most; it behaves the same on any buffer of that capacity, and on
    success the two buffers hold the same string. *)
Lemma sectname_loop_same_capacity (E : machine) (offset : Z) (fuel : nat)
    (li1 li2 : mod_loadinfo_s) (tr1 tr2 : list event) r li1' tr1' :
  0 < CONFIG_MODULE_BUFFERINCR E -> 0 <= offset < SIZE_MOD E ->
  sizes_ok E li1 -> buffer_ok li1 -> buffer_ok li2 -> same_but_buffer li1 li2 ->
  sectname_loop fuel E offset 0 li1 tr1 = (r, li1', tr1') ->
  buflen li1' = buflen li1 ->
  exists li2' tr2',
    sectname_loop fuel E offset 0 li2 tr2 = (r, li2', tr2')
    /\ same_but_buffer li1' li2' /\ buffer_ok li2'
    /\ (r = Some OK -> cstring (iobuffer li2') = cstring (iobuffer li1')).
Proof.
  intros Hincr Hoff Hsz Hok1 Hok2 (Hf & He & Hs & Hb).
  destruct fuel as [|fuel]; cbn [sectname_loop].
  { intros [= <- <- <-] _. exists li2, tr2. repeat split; auto. discriminate. }
  assert (Hbr : 0 <= 0 <= buflen li1) by (destruct Hsz; lia).
  pose proof (readlen_bounds E li1 offset 0 Hsz Hoff Hbr) as Hlen.
  cbv zeta in Hlen. rewrite <- Hf, <- Hb.
  destruct (_ && (filelen li1 <=? offset)) eqn:Heof.
  { intros [= <- <- <-] _. exists li2, tr2. repeat split; auto. discriminate. }
  specialize (Hlen eq_refl).
  match type of Hlen with 0 <= ?x <= _ => set (readlen := x) in * end.
  destruct (mod_read E readlen offset) as [chunk|e|] eqn:Hread.
  2:{ intros [= <- <- <-] _. eexists li2, _. repeat split; auto. discriminate. }
  2:{ now apply mod_read_defined in Hread. }
  apply mod_read_Success in Hread as (_ & Hchunk & _).
  rewrite !poke_front by (unfold buffer_ok in *; lia).
  cbn [iobuffer buflen set_iobuffer].
  assert (Hslice : forall tail, slice (chunk ++ tail) 0 readlen = chunk).
  { intros tail. rewrite slice_0, <- Hchunk. unfold zlen.
    rewrite Nat2Z.id, firstn_app, Nat.sub_diag, firstn_all. simpl.
    now rewrite app_nil_r. }
  rewrite !Hslice.
  assert (Hlen2 : forall li, buffer_ok li -> buflen li = buflen li1 ->
            zlen (chunk ++ skipn (length chunk) (iobuffer li)) = buflen li1).
  { intros li Hok Hbl. rewrite zlen_app. unfold buffer_ok, zlen in *.
    rewrite length_skipn. lia. }
  destruct (memchr_nul chunk) eqn:Hnul.
  { intros [= <- <- <-] _. eexists _, _. split; [reflexivity|].
    split; [now repeat split|]. split; [now apply Hlen2|].
    intros _. cbn [iobuffer set_iobuffer]. now rewrite !cstring_app_nul. }
  set (l1 := set_iobuffer _ (buflen li1) li1).
  set (l2 := set_iobuffer _ (buflen li1) li2).
  unfold mod_reallocbuffer. cbn [buflen l1 l2 set_iobuffer].
  destruct (_ && (buflen li1 + CONFIG_MODULE_BUFFERINCR E <? SIZE_MOD E)) eqn:Hre.
  - unfold OK at 1. intros Hrun Hsame. exfalso.
    apply andb_prop in Hre as [Hre H3]. apply andb_prop in Hre as [_ H2].
    apply Z.leb_le in H2. apply Z.ltb_lt in H3.
    apply sectname_loop_bounds in Hrun as (_ & _ & Hgrow & _);
      try assumption; try lia.
    + cbn [buflen set_iobuffer] in Hgrow. lia.
    + split; cbn [filelen buflen set_iobuffer]; [apply Hsz | lia].
    + cbn [buflen set_iobuffer]. rewrite size_t_id by lia. lia.
  - intros [= <- <- <-] _. eexists l2, _. split; [reflexivity|].
    split; [now repeat split|]. split; [now apply Hlen2 | discriminate].
Qed.

Lemma mod_sectname_same_capacity (fuel : nat) (E : machine)
    (li1 li2 : mod_loadinfo_s) (ix : Z) (tr1 tr2 : list event) r li1' tr1' :
  0 < CONFIG_MODULE_BUFFERINCR E ->
  sizes_ok E li1 -> buffer_ok li1 -> buffer_ok li2 -> same_but_buffer li1 li2 ->
  mod_sectname fuel E li1 ix tr1 = (r, li1', tr1') ->
  buflen li1' = buflen li1 ->
  exists li2' tr2',
    mod_sectname fuel E li2 ix tr2 = (r, li2', tr2')
    /\ same_but_buffer li1' li2' /\ buffer_ok li2'
    /\ (r = Some OK -> cstring (iobuffer li2') = cstring (iobuffer li1')).
Proof.
  intros Hincr Hsz Hok1 Hok2 Hsame. pose proof Hsame as (Hf & He & Hs & Hb).
  unfold mod_sectname. rewrite <- He, <- Hs.
  assert (Hstay : forall r0, (r0, li1, tr1) = (r, li1', tr1') ->
            r0 <> Some OK ->
            exists li2' tr2',
              (r0, li2, tr2) = (r, li2', tr2')
              /\ same_but_buffer li1' li2' /\ buffer_ok li2'
              /\ (r = Some OK -> cstring (iobuffer li2') = cstring (iobuffer li1'))).
  { intros r0 [= <- <- <-] Hr0. exists li2, tr2. repeat split; auto.
    intros Habs. now contradiction Hr0. }
  destruct (_ =? _); [intros H _; apply Hstay; [exact H | discriminate]|].
  destruct (shdr li1) as [tbl|]; [|intros H _; apply Hstay; [exact H | discriminate]].
  destruct (shdr_at tbl _);
    [|intros H _; apply Hstay; [exact H | discriminate]].
  destruct (shdr_at tbl ix);
    [|intros H _; apply Hstay; [exact H | discriminate]].
  apply sectname_loop_same_capacity; try assumption.
  apply size_t_range. now apply (sizes_ok_pos E li1).
Qed.

Lemma findsection_loop_same_capacity (fuel : nat) (E : machine)
    (sectname : list byte) :
  0 < CONFIG_MODULE_BUFFERINCR E ->
  forall (gas : nat) (i : Z) (li1 li2 : mod_loadinfo_s) (tr1 tr2 : list event)
         r li1' tr1',
  sizes_ok E li1 -> buffer_ok li1 -> buffer_ok li2 -> same_but_buffer li1 li2 ->
  findsection_loop gas fuel E sectname i li1 tr1 = (r, li1', tr1') ->
  buflen li1' = buflen li1 ->
  exists li2' tr2',
    findsection_loop gas fuel E sectname i li2 tr2 = (r, li2', tr2')
    /\ same_but_buffer li1' li2' /\ buffer_ok li2'.
Proof.
  intros Hincr. assert (Hincr0 : 0 <= CONFIG_MODULE_BUFFERINCR E) by lia.
  induction gas as [|gas IH];
    intros i li1 li2 tr1 tr2 r li1' tr1' Hsz Hok1 Hok2 Hsame;
    cbn [findsection_loop].
  - intros [= <- <- <-] _. now exists li2, tr2.
  - pose proof Hsame as (_ & He & _). rewrite <- He.
    destruct (i <? e_shnum (ehdr li1));
      [|intros [= <- <- <-] _; now exists li2, tr2].
    destruct (mod_sectname fuel E li1 i tr1) as [[r1 l1] t1] eqn:Hrun.
    pose proof (mod_sectname_keeps _ _ _ _ _ _ _ _ Hincr0 Hsz Hrun)
      as (Hsz1 & Hgrow & Hbuf1 & _).
    intros Hrest Hcap.
    assert (Hcap1 : buflen l1 = buflen li1).
    { destruct r1 as [[u|e|]|]; try (injection Hrest as _ <- _; exact Hcap).
      destruct (strcmp_eq0 (iobuffer l1) sectname);
        [injection Hrest as _ <- _; exact Hcap|].
      apply findsection_loop_keeps in Hrest as (_ & _ & _ & _ & Hgrow' & _);
        try assumption. lia. }
    destruct (mod_sectname_same_capacity fuel E li1 li2 i tr1 tr2 r1 l1 t1
                Hincr Hsz Hok1 Hok2 Hsame Hrun Hcap1)
      as (l2 & t2 & Hrun2 & Hsame1 & Hok2' & Hstr).
    rewrite Hrun2.
    destruct r1 as [[[]|e|]|];
      try (injection Hrest as <- <- <-; now exists l2, t2).
    unfold strcmp_eq0 in *. rewrite (Hstr eq_refl).
    destruct (bytes_eqb (cstring (iobuffer l1)) (cstring sectname)).
    + injection Hrest as <- <- <-. now exists l2, t2.
    + apply (IH (i + 1) l1 l2 t1 t2 r li1' tr1'); auto. lia.
Qed.

(** X11: when a search left the capacity of the working buffer as it found it,
    the same search on the session it leaves returns the same result, index
    or error; the capacity is again unchanged. *)
Theorem findsection_twice_without_growth (fuel : nat) (E : machine)
    (li : mod_loadinfo_s) (sectname : list byte) (tr : list event) r li' tr' :
  0 < CONFIG_MODULE_BUFFERINCR E -> sizes_ok E li -> buffer_ok li ->
  mod_findsection fuel E li sectname tr = (r, li', tr') ->
  buflen li' = buflen li ->
  exists li'' tr'',
    mod_findsection fuel E li' sectname tr' = (r, li'', tr'')
    /\ buflen li'' = buflen li.
Proof.
  intros Hincr Hsz Hok Hrun Hcap. unfold mod_findsection in *.
  assert (Hincr0 : 0 <= CONFIG_MODULE_BUFFERINCR E) by lia.
  pose proof (findsection_loop_keeps fuel E sectname Hincr0 _ _ _ _ _ _ _ Hsz Hrun)
    as (Hf & He & Hs & _ & _ & Hok' & _).
  assert (Hsame : same_but_buffer li li') by (repeat split; congruence).
  destruct (findsection_loop_same_capacity fuel E sectname Hincr _ 0 li li' tr tr'
              r li' tr' Hsz Hok (Hok' Hok) Hsame Hrun Hcap)
    as (li'' & tr'' & Hrun2 & (_ & _ & _ & Hb) & _).
  exists li'', tr''. rewrite He. split; [exact Hrun2 | congruence].
Qed.

Lemma findsection_twice_without_growth_witness :
  exists li'' tr'',
    mod_findsection 1 three_device
      (snd (fst (mod_findsection 1 three_device three_session
                   (bytes_of ".data") [])))
      (bytes_of ".data")
      (snd (mod_findsection 1 three_device three_session (bytes_of ".data") []))
    = (Some (Success 1), li'', tr'')
    /\ buflen li'' = buflen three_session.
Proof.
  apply (findsection_twice_without_growth 1 three_device three_session
           (bytes_of ".data") []).
  - cbn [CONFIG_MODULE_BUFFERINCR three_device]. lia.
  - exact three_sizes_ok.
  - reflexivity.
  - reflexivity.
  - reflexivity.
Defined.

(** * A growth step of zero *)

Lemma memchr_nul_prefix (l : list byte) (off len n : Z) :
  0 <= off -> 0 <= len <= n ->
  memchr_nul (slice l off n) = false -> memchr_nul (slice l off len) = false.
Proof.
  intros Hoff Hlen. rewrite (slice_split l off len n) by lia.
  rewrite memchr_nul_app. intros H. now apply orb_false_iff in H as [H _].
Qed.

Lemma sectname_loop_stalls (E : machine) (offset : Z) (li0 : mod_loadinfo_s) :
  CONFIG_MODULE_BUFFERINCR E = 0 -> sizes_ok E li0 ->
  heap_avail E (buflen li0) = true ->
  0 <= offset < filelen li0 -> filelen li0 + buflen li0 < SIZE_MOD E ->
  filelen li0 <= zlen (dev_data E) ->
  (forall off len, dev_fault E off len = false) ->
  memchr_nul (slice (dev_data E) offset (first_read li0 offset)) = false ->
  forall (fuel : nat) (bytesread : Z) (li : mod_loadinfo_s) (tr : list event),
  same_but_buffer li0 li -> buffer_ok li -> 0 <= bytesread <= buflen li ->
  fst (fst (sectname_loop fuel E offset bytesread li tr)) = None.
Proof.
  intros Hincr Hsz0 Hheap Hoff Hsum Hfile Hdev Hnonul.
  induction fuel as [|fuel IH]; intros bytesread li tr Hsame Hok Hbr;
    cbn [sectname_loop]; [reflexivity|].
  destruct Hsame as (Hf & He & Hs & Hb).
  assert (Hsz : sizes_ok E li) by (unfold sizes_ok; rewrite <- Hf, <- Hb; exact Hsz0).
  assert (Hoff' : 0 <= offset < SIZE_MOD E) by (destruct Hsz0; lia).
  pose proof (readlen_bounds E li offset bytesread Hsz Hoff' Hbr) as Hlen.
  pose proof (readlen_within_file E li offset bytesread Hsz Hoff' Hbr) as Hin.
  cbv zeta in Hlen, Hin.
  destruct (_ && (filelen li <=? offset)) eqn:Heof.
  { apply andb_prop in Heof as [_ Heof]. apply Z.leb_le in Heof. lia. }
  specialize (Hlen eq_refl). specialize (Hin eq_refl).
  match type of Hlen with 0 <= ?x <= _ => set (readlen := x) in * end.
  assert (Hin' : offset + readlen <= filelen li) by lia.
  rewrite mod_read_served by (auto; lia).
  set (chunk := slice (dev_data E) offset readlen).
  assert (Hchunk : zlen chunk = readlen) by (apply zlen_slice; lia).
  destruct (poke (iobuffer li) bytesread chunk) as [buf|] eqn:Hpoke.
  2:{ exfalso. revert Hpoke. apply poke_defined; [lia|].
      unfold buffer_ok in Hok. lia. }
  cbn [iobuffer buflen set_iobuffer].
  pose proof (zlen_poke _ _ _ _ Hpoke) as Hbuf.
  apply slice_poke in Hpoke. rewrite Hchunk in Hpoke. rewrite Hpoke.
  assert (Hquiet : memchr_nul chunk = false).
  { unfold chunk. apply (memchr_nul_prefix _ _ _ (first_read li0 offset));
      [lia| |assumption]. unfold first_read. lia. }
  rewrite Hquiet.
  unfold mod_reallocbuffer. cbn [buflen iobuffer set_iobuffer].
  rewrite Hincr, Z.add_0_r, <- Hb, Hheap.
  destruct Hsz0 as [_ Hbl0].
  destruct (0 <=? buflen li0) eqn:H1; [|apply Z.leb_gt in H1; lia].
  destruct (buflen li0 <? SIZE_MOD E) eqn:H2; [|apply Z.ltb_ge in H2; lia].
  cbn [andb]. unfold OK at 1. apply IH.
  - now repeat split.
  - unfold buffer_ok. cbn [iobuffer buflen set_iobuffer].
    rewrite zlen_app. unfold zlen in *.
    rewrite length_fresh, length_firstn. unfold buffer_ok, zlen in Hok. lia.
  - cbn [buflen set_iobuffer]. rewrite size_t_id by lia. lia.
Qed.

(** X5: with [CONFIG_MODULE_BUFFERINCR] set to zero the loop of [mod_sectname]
    cannot make progress: for a name that starts inside the file and has no
    NUL among the bytes of the first read, on a device and a heap that serve
    every request, the function never returns, whatever the number of
    iterations allowed. *)
Theorem sectname_zero_step_never_returns (E : machine) (li : mod_loadinfo_s)
    (ix : Z) (tr : list event) (offset : Z) :
  CONFIG_MODULE_BUFFERINCR E = 0 ->
  e_shstrndx (ehdr li) <> SHN_UNDEF -> session_ok E li ->
  heap_avail E (buflen li) = true ->
  (forall off len, dev_fault E off len = false) ->
  name_offset E li ix = Some offset -> offset < filelen li ->
  memchr_nul (slice (dev_data E) offset (first_read li offset)) = false ->
  forall fuel : nat, fst (fst (mod_sectname fuel E li ix tr)) = None.
Proof.
  intros Hincr Hstr (_ & Hsz & Hok & Hsum & Hfile) Hheap Hdev Hoff Hin Hnonul fuel.
  unfold name_offset in Hoff. unfold mod_sectname.
  destruct (e_shstrndx (ehdr li) =? SHN_UNDEF) eqn:H0;
    [apply Z.eqb_eq in H0; contradiction|].
  destruct (shdr li) as [tbl|]; [|discriminate].
  destruct (shdr_at tbl (e_shstrndx (ehdr li))) as [shstr|]; [|discriminate].
  destruct (shdr_at tbl ix) as [sh|]; [|discriminate].
  injection Hoff as Hoff. rewrite Hoff.
  assert (Hrange : 0 <= offset)
    by (rewrite <- Hoff; apply size_t_range; now apply (sizes_ok_pos E li)).
  apply (sectname_loop_stalls E offset li); auto; try lia.
  - now repeat split.
  - destruct Hsz. lia.
Qed.

Lemma sectname_zero_step_never_returns_witness :
  fst (fst (mod_sectname 100 stalled_device short_session 0 [])) = None.
Proof.
  apply (sectname_zero_step_never_returns stalled_device short_session 0 [] 0).
  - reflexivity.
  - discriminate.
  - unfold session_ok, target_ok, sizes_ok, buffer_ok.
    change (SIZE_MOD stalled_device) with 4294967296.
    repeat split; vm_compute; congruence.
  - reflexivity.
  - reflexivity.
  - reflexivity.
  - simpl. lia.
  - reflexivity.
Defined.

(** * Loading, then searching *)

Lemma loaded_name_offset (E : machine) (li : mod_loadinfo_s) (tr : list event)
    li1 tr1 (j : Z) :
  target_ok E ->
  e_shentsize (ehdr li) = SIZEOF_SHDR -> e_shnum (ehdr li) < 65536 ->
  0 <= e_shstrndx (ehdr li) < e_shnum (ehdr li) ->
  mod_loadshdrs E li tr = (OK, li1, tr1) ->
  0 <= j < e_shnum (ehdr li) ->
  name_offset E li1 j = Some (file_name_offset E (ehdr li) j).
Proof.
  intros Hwide Hent Hnum Hstr Hload Hj.
  destruct (loadshdrs_entry E li tr li1 tr1 j Hwide Hent Hnum Hload Hj)
    as (tbl & Htbl & Hat).
  destruct (loadshdrs_entry E li tr li1 tr1 _ Hwide Hent Hnum Hload Hstr)
    as (tbl' & Htbl' & Hat').
  assert (tbl' = tbl) as -> by congruence.
  apply loadshdrs_OK in Hload as (-> & _).
  unfold name_offset. cbn [ehdr shdr set_shdr] in *.
  injection Htbl as ->. now rewrite Hat', Hat.
Qed.

(** X15: loading the table and then searching it: for a file whose table has
    entries of the size of [Elf32_Shdr], a string table index below
    [e_shnum], and, for every section of index [0 .. i], a name that lies with
    its NUL within the first read at the offset the file gives for it, where
    section [i] is the first one named [sectname], a successful
    [mod_loadshdrs] followed by [mod_findsection] returns [i]. *)
Theorem load_then_find (fuel : nat) (E : machine) (li : mod_loadinfo_s)
    (tr : list event) li1 tr1 (sectname : list byte) (i : Z) :
  session_ok E li -> (forall off len, dev_fault E off len = false) ->
  e_shentsize (ehdr li) = SIZEOF_SHDR -> e_shnum (ehdr li) < 65536 ->
  0 < e_shstrndx (ehdr li) < e_shnum (ehdr li) ->
  mod_loadshdrs E li tr = (OK, li1, tr1) ->
  0 <= i < e_shnum (ehdr li) ->
  (forall j, 0 <= j <= i ->
     exists nm, name_at E (file_name_offset E (ehdr li) j) nm
       /\ zlen nm + 1 <= first_read li (file_name_offset E (ehdr li) j)
       /\ (nm = sectname <-> j = i)) ->
  exists buf tr',
    mod_findsection (S fuel) E li1 sectname tr1
    = ret (Success i) (set_iobuffer buf (buflen li) li1) tr'
    /\ cstring buf = sectname.
Proof.
  intros Hok Hdev Hent Hnum Hstr Hload Hi Hnames.
  pose proof Hok as (Hwide & _).
  assert (Hoffs : forall j, 0 <= j < e_shnum (ehdr li) ->
            name_offset E li1 j = Some (file_name_offset E (ehdr li) j)).
  { intros j Hj. apply (loaded_name_offset E li tr li1 tr1 j); auto. lia. }
  apply loadshdrs_OK in Hload as (Hli1 & _).
  assert (Hplain : memchr_nul sectname = false).
  { destruct (Hnames i) as (nm & [Hnul _] & _ & Hnm); [lia|].
    now rewrite <- (proj2 Hnm eq_refl). }
  unfold mod_findsection.
  destruct (findsection_loop_lowest fuel E sectname Hplain Hdev (Z.to_nat i)
              (S (Z.to_nat (e_shnum (ehdr li1)))) 0 li1 tr1)
    as (buf & tr' & Hrun & Hcs).
  - rewrite Hli1. cbn [ehdr set_shdr]. lia.
  - rewrite Hli1. cbn [ehdr set_shdr]. lia.
  - rewrite Hli1. cbn [ehdr set_shdr]. unfold SHN_UNDEF. lia.
  - rewrite Hli1. exact Hok.
  - intros j Hj. destruct (Hnames j) as (nm & H1 & H2 & H3); [lia|].
    exists (file_name_offset E (ehdr li) j), nm.
    split; [apply Hoffs; lia|]. split; [assumption|].
    split; [rewrite Hli1; exact H2|].
    split; intros Hn; [apply H3 in Hn | apply H3]; lia.
  - exists buf, tr'. rewrite Hrun. split; [|assumption].
    rewrite Hli1. cbn [buflen set_shdr]. do 3 f_equal. lia.
Qed.

Lemma three_fresh_ok : session_ok three_device three_fresh.
Proof.
  unfold session_ok, target_ok, sizes_ok, buffer_ok.
  change (SIZE_MOD three_device) with 4294967296.
  repeat split; vm_compute; congruence.
Qed.

Lemma load_then_find_witness :
  exists buf tr',
    mod_findsection 1 three_device three_session (bytes_of ".data")
      [EvMalloc 120; EvRead 0 120 120 20]
    = ret (Success 1) (set_iobuffer buf 32 three_session) tr'
    /\ cstring buf = bytes_of ".data".
Proof.
  apply (load_then_find 0 three_device three_fresh [] three_session
           [EvMalloc 120; EvRead 0 120 120 20] (bytes_of ".data") 1).
  - exact three_fresh_ok.
  - reflexivity.
  - reflexivity.
  - simpl. lia.
  - simpl. lia.
  - exact three_loaded.
  - simpl. lia.
  - intros j Hj. assert (Hcases : j = 0 \/ j = 1) by lia.
    destruct Hcases as [-> | ->].
    + exists (bytes_of ".text"). split; [split; reflexivity|].
      split; [vm_compute; congruence|]. split; [discriminate | lia].
    + exists (bytes_of ".data"). split; [split; reflexivity|].
      split; [vm_compute; congruence|]. split; reflexivity.
Defined.
